(** * query/outputnode.go: the output tree, its encoder and its normalizer

    A shallow embedding of [src/query/outputnode.go].  Go slices are lists,
    Go [int]/[uint64] are [Z], a Go [error] is an optional message, a
    run-time panic (failed type assertion, index out of range) is [None] in
    the option monad.  Library routines the file calls but does not define
    are collected in the class [Externals]. *)

From Stdlib Require Import ZArith String Ascii List Permutation Sorted Lia Floats.
From Stdlib Require Import DecimalString HexadecimalString.
From Stdlib.Strings Require Import Byte.
From stdpp Require Import base option list gmap strings sorting.

Set Warnings "-register-all".

Open Scope Z_scope.

(** ** Bytes and text *)

Abbreviation bytes := (list byte).

(** [[]byte(s)] *)
Definition B (s : string) : bytes := list_byte_of_string s.

(** The double quote rune. *)
Definition dq : bytes := [x22].

(** Readable byte literals for examples: every apostrophe stands for a
    double quote. *)
Definition Q (s : string) : bytes :=
  map (fun b => match b with x27 => x22 | _ => b end) (B s).

(** [len] of a slice, as a Go [int]. *)
Definition len {A} (l : list A) : Z := Z.of_nat (length l).

(** [l[i]] for a Go [int] index; [None] is the index-out-of-range panic. *)
Definition index {A} (l : list A) (i : Z) : option A :=
  if i <? 0 then None else l !! Z.to_nat i.

(** [%d] of an integer. *)
Definition decimal (n : Z) : string :=
  DecimalString.NilZero.string_of_int (Z.to_int n).

(** [%#x] of a [uint64]. *)
Definition hex (n : Z) : string :=
  ("0x" +:+ HexadecimalString.NilZero.string_of_uint (N.to_hex_uint (Z.to_N n)))%string.

(** A Go [(T, error)] pair: exactly one of the two is meaningful. *)
Inductive result (A : Type) : Type :=
| Ok (a : A)
| Err (msg : string).
Arguments Ok {A} a.
Arguments Err {A} msg.

(** A Go [error] value; [None] is [nil], [Some msg] has [Error() = msg]. *)
Abbreviation error := (option string).

(** ** Package types: typed values *)

Module types.

(** [types.TypeID].  The numbering is declared in package [types];
    [OtherID] stands for every identifier the switch of [valToBytes] does
    not name (such as [types.UndefinedID]). *)
Inductive TypeID : Type :=
| DefaultID | BinaryID | IntID | FloatID | BoolID | DateTimeID
| GeoID | UidID | PasswordID | StringID
| OtherID (code : Z).

(** The dynamic value held in the [interface{}] field [Val.Value].  A
    [time.Time] and a [geom.T] are library values that this file only
    hands to library renderers; they are carried as opaque payloads. *)
Inductive GoValue : Type :=
| VNil
| VString (s : string)
| VBytes (b : bytes)
| VInt64 (n : Z)
| VUint64 (n : Z)
| VFloat64 (f : float)
| VBool (b : bool)
| VTime (t : Z)
| VGeom (g : bytes).

Record Val : Type := mkVal { Tid : TypeID; Value : GoValue }.

(** [types.ValueForType(tid)] followed by the assignment of [Value]. *)
Definition ValueForType (tid : TypeID) (v : GoValue) : Val := mkVal tid v.

End types.

(** ** Packages api and pb: facets and task values *)

Module api.
Record Facet : Type := mkFacet {
  Key : string;
  Value : bytes;
  ValType : Z;
  Alias : string
}.
End api.

Module pb.
Record TaskValue : Type := mkTaskValue { Val : bytes; ValType : Z }.
End pb.

(** ** The output node *)

Inductive fastJsonNode : Type := mkNode {
  attr : string;
  order : Z;
  isChild : bool;
  scalarVal : bytes;
  attrs : list fastJsonNode;
  list_ : bool
}.

(** [&fastJsonNode{}] *)
Definition zeroNode : fastJsonNode := mkNode "" 0 false [] [] false.

Definition set_attr (a : string) (fj : fastJsonNode) : fastJsonNode :=
  mkNode a (order fj) (isChild fj) (scalarVal fj) (attrs fj) (list_ fj).
Definition set_order (o : Z) (fj : fastJsonNode) : fastJsonNode :=
  mkNode (attr fj) o (isChild fj) (scalarVal fj) (attrs fj) (list_ fj).
Definition set_isChild (c : bool) (fj : fastJsonNode) : fastJsonNode :=
  mkNode (attr fj) (order fj) c (scalarVal fj) (attrs fj) (list_ fj).
Definition set_attrs (l : list fastJsonNode) (fj : fastJsonNode) : fastJsonNode :=
  mkNode (attr fj) (order fj) (isChild fj) (scalarVal fj) l (list_ fj).

Definition makeScalarNode (a : string) (child : bool) (val : bytes) (l : bool)
  : fastJsonNode :=
  mkNode a 0 child val [] l.

(** [append(fj.attrs, n)] stored back into [fj.attrs]. *)
Definition appendAttr (n : fastJsonNode) (fj : fastJsonNode) : fastJsonNode :=
  set_attrs (attrs fj ++ [n]) fj.

(** Induction over the tree, with the hypothesis for every attached node. *)
Section fastJsonNode_ind.
Variable P : fastJsonNode -> Prop.
Hypothesis step : forall a o c v l b,
    Forall P l -> P (mkNode a o c v l b).

Fixpoint fastJsonNode_tree_ind (fj : fastJsonNode) : P fj :=
  match fj with
  | mkNode a o c v l b =>
      step a o c v l b
        ((fix all (l : list fastJsonNode) : Forall P l :=
            match l with
            | [] => @List.Forall_nil _ P
            | x :: l' =>
                @List.Forall_cons _ P x l' (fastJsonNode_tree_ind x) (all l')
            end) l)
  end.
End fastJsonNode_ind.

(** ** The sub-graph handed over by the query engine *)

Module gql.
Record VarContext : Type := mkVarContext { Name : string }.
End gql.

Record Function : Type := mkFunction { Name : string }.

Record pathMetadata : Type := mkPathMetadata { weight : float }.

Record FacetParams : Type := mkFacetParams { AllKeys : bool }.

Record groupPair : Type := mkGroupPair { key : types.Val; gp_attr : string }.
Record groupResult : Type := mkGroupResult {
  keys : list groupPair;
  aggregates : list groupPair
}.
Record groupResults : Type := mkGroupResults { group : list groupResult }.

(** The fields of [params] this file reads.  [parentIds], the one field it
    writes, is kept in [Stacks] below.  [isInternal] is the answer of
    [sg.IsInternal()]. *)
Module params.
Record t : Type := mk {
  Alias : string;
  GetUid : bool;
  IsEmpty : bool;
  uidCount : bool;
  uidCountAlias : string;
  Normalize : bool;
  isGroupBy : bool;
  isInternal : bool;
  uidToVal : gmap Z types.Val;
  NeedsVar : list gql.VarContext;
  Var : string;
  IgnoreReflex : bool;
  ignoreResult : bool;
  Expand : string;
  Facet : option FacetParams;
  Langs : list string;
  expandAll : bool;
  shortest : bool
}.
End params.

(** A [pb.List] is its [Uids], a [pb.ValueList] its [Values], a
    [pb.FacetsList] its list of [pb.Facets], each of which is its list of
    facets, a [pb.LangList] its [Lang]; the pointers to them are taken to be
    non-nil.  [uidMatrix = None] is the nil slice. *)
Inductive SubGraph : Type := mkSubGraph {
  Attr : string;
  Params : params.t;
  SrcUIDs : list Z;
  DestUIDs : list Z;
  uidMatrix : option (list (list Z));
  valueMatrix : list (list pb.TaskValue);
  facetsMatrix : list (list (list api.Facet));
  counts : list Z;
  LangTags : list (list string);
  GroupbyRes : list groupResults;
  SrcFunc : option Function;
  List_ : bool;
  pathMeta : option pathMetadata;
  Children : list SubGraph
}.

(** The rows of a possibly nil matrix. *)
Definition rowsOf {A} (m : option (list A)) : list A := default [] m.

(** Induction over a sub-graph tree, with the children as a list. *)
Section SubGraph_ind.
Variable P : SubGraph -> Prop.
Hypothesis step : forall sg, Forall P (Children sg) -> P sg.

Fixpoint SubGraph_tree_ind (sg : SubGraph) : P sg :=
  step sg
    (match sg return Forall P (Children sg) with
     | mkSubGraph _ _ _ _ _ _ _ _ _ _ _ _ _ cs =>
         (fix all (l : list SubGraph) : Forall P l :=
            match l with
            | [] => @List.Forall_nil _ P
            | x :: l' =>
                @List.Forall_cons _ P x l' (SubGraph_tree_ind x) (all l')
            end) cs
     end).
End SubGraph_ind.

(** The mutable part of a sub-graph tree: [parentIds] is
    [sg.Params.parentIds], [kids] holds the same for [sg.Children], in
    order.  A missing entry of [kids] is a child whose stacks are all
    empty, as they are before the first traversal. *)
Inductive Stacks : Type := mkStacks {
  parentIds : list Z;
  kids : list Stacks
}.

Definition emptyStacks : Stacks := mkStacks [] [].

Definition kidAt (k : nat) (ks : list Stacks) : Stacks :=
  default emptyStacks (ks !! k).

Definition setKid (k : nat) (v : Stacks) (ks : list Stacks) : list Stacks :=
  if decide (k < length ks)%nat then <[k := v]> ks
  else ks ++ replicate (k - length ks) emptyStacks ++ [v].

(** ** nodeSlice: the order rows are sorted by *)

(** [nodeSlice.Less] on the two elements it is asked about;
    [strings.Compare] is the byte-wise lexicographic [String.compare]. *)
Definition Less (a b : fastJsonNode) : bool :=
  match String.compare (attr a) (attr b) with
  | Eq => order a <? order b
  | Lt => true
  | Gt => false
  end.

(** What [sort.Sort] promises about its result: no later element is
    [Less] than an earlier one.  The sort is not promised to be stable. *)
Definition ascending (l : list fastJsonNode) : Prop :=
  StronglySorted (fun a b => Less b a = false) l.

(** ** What the file takes from other packages *)

Class Externals : Type := {
  (** [sort.Sort(nodeSlice(l))], with the contract of package [sort] *)
  sort_Sort : list fastJsonNode -> list fastJsonNode;
  sort_Sort_perm : forall l, Permutation (sort_Sort l) l;
  sort_Sort_ascending : forall l, ascending (sort_Sort l);
  (** [json.Marshal(v)] *)
  json_Marshal : types.GoValue -> result bytes;
  (** [fmt.Sprintf(verb, v)] for the verb/value pairs not written out in
      [Sprintf] below. *)
  fmt_Sprintf : string -> types.GoValue -> bytes;
  (** [t.IsZero()] and [t.MarshalJSON()] of [time.Time] *)
  time_IsZero : Z -> bool;
  time_MarshalJSON : Z -> result bytes;
  (** [geojson.Marshal(g)] *)
  geojson_Marshal : bytes -> result bytes;
  (** [algo.IndexOf(list, uid)]: position of [uid] in the list or -1 *)
  algo_IndexOf : list Z -> Z -> Z;
  (** [facets.ValFor(f)] *)
  facets_ValFor : api.Facet -> result types.Val;
  (** [convertWithBestEffort(tv, attr)], defined in query.go *)
  convertWithBestEffort : pb.TaskValue -> string -> result types.Val;
  (** [task.ToBool(tv)] *)
  task_ToBool : pb.TaskValue -> bool;
  (** the constant [FacetDelimeter] *)
  FacetDelimeter : string;
  (** [x.Config.NormalizeNodeLimit] *)
  NormalizeNodeLimit : Z
}.

(** A normalized row. *)
Abbreviation row := (list fastJsonNode).

(** What one pass of the loop over [sg.Children] works on: the stacks of
    the child [pc], the destination node, and [invalidUids]. *)
Abbreviation childState := (Stacks * fastJsonNode * gset Z)%type.

(** What the loop over [sg.Children] works on: the position in
    [sg.Children], the stacks of the children, the destination node and
    [invalidUids]. *)
Abbreviation loopState := (nat * list Stacks * fastJsonNode * gset Z)%type.

(** What the loop of [processNodeUids] works on: the stacks of [sg], the
    root node [fj] and [hasChild]. *)
Abbreviation rootState := (Stacks * fastJsonNode * bool)%type.

Section OutputNode.

Context `{Ext : Externals}.

(** [fmt.Sprintf(verb, v)]: decimal integers and hexadecimal uids are
    written out, every other pair is the library's. *)
Definition Sprintf (verb : string) (v : types.GoValue) : bytes :=
  match v with
  | types.VInt64 n =>
      if (verb =? "%d")%string then B (decimal n) else fmt_Sprintf verb v
  | types.VUint64 n =>
      if (verb =? "%d")%string then B (decimal n)
      else if (verb =? "%#x")%string then B (hex n)
      else fmt_Sprintf verb v
  | _ => fmt_Sprintf verb v
  end.

Definition valToBytes (v : types.Val) : option (result bytes) :=
  match types.Tid v with
  | types.StringID | types.DefaultID => Some (json_Marshal (types.Value v))
  | types.BinaryID => Some (Ok (Sprintf "%q" (types.Value v)))
  | types.IntID => Some (Ok (Sprintf "%d" (types.Value v)))
  | types.FloatID => Some (Ok (Sprintf "%f" (types.Value v)))
  | types.BoolID =>
      match types.Value v with
      | types.VBool b => Some (Ok (if b then B "true" else B "false"))
      | _ => None
      end
  | types.DateTimeID =>
      match types.Value v with
      | types.VTime t =>
          if time_IsZero t then Some (Ok (dq ++ dq))
          else Some (time_MarshalJSON t)
      | _ => None
      end
  | types.GeoID =>
      match types.Value v with
      | types.VGeom g => Some (geojson_Marshal g)
      | _ => None
      end
  | types.UidID => Some (Ok (dq ++ Sprintf "%#x" (types.Value v) ++ dq))
  | types.PasswordID =>
      match types.Value v with
      | types.VString s => Some (Ok (Sprintf "%q" (types.VString s)))
      | _ => None
      end
  | types.OtherID _ => Some (Err "Unsupported types.Val.Tid")
  end.

Definition AddListValue (a : string) (v : types.Val) (l : bool)
    (fj : fastJsonNode) : option fastJsonNode :=
  r ← valToBytes v;
  match r with
  | Ok bs => Some (appendAttr (makeScalarNode a false bs l) fj)
  | Err _ => Some fj
  end.

Definition AddValue (a : string) (v : types.Val) (fj : fastJsonNode)
  : option fastJsonNode :=
  AddListValue a v false fj.

(** [val] is the node handed in; the caller drops it after the call, so
    only the receiver is returned. *)
Definition AddMapChild (a : string) (val : fastJsonNode) (isRoot : bool)
    (fj : fastJsonNode) : fastJsonNode :=
  match list_find (fun c => attr c = a) (attrs fj) with
  | Some (i, childNode) =>
      set_attrs
        (<[i := set_attrs (attrs childNode ++ attrs val) childNode]> (attrs fj))
        fj
  | None => appendAttr (set_attr a (set_isChild false val)) fj
  end.

Definition AddListChild (a : string) (child : fastJsonNode)
    (fj : fastJsonNode) : fastJsonNode :=
  appendAttr (set_isChild true (set_attr a child)) fj.

Definition New (a : string) : fastJsonNode := mkNode a 0 false [] [] false.

Definition hasAttr (a : string) (fj : fastJsonNode) : bool :=
  existsb (fun x => (attr x =? a)%string) (attrs fj).

Definition SetUID (uid : Z) (a : string) (fj : fastJsonNode) : fastJsonNode :=
  if (a =? "uid")%string && hasAttr a fj then fj
  else appendAttr (makeScalarNode a false (dq ++ B (hex uid) ++ dq) false) fj.

Definition IsEmpty (fj : fastJsonNode) : bool := len (attrs fj) =? 0.

(** ** The encoder *)

Definition writeKey (fj : fastJsonNode) : bytes :=
  dq ++ B (attr fj) ++ dq ++ B ":".

(** The [for] loop of [encode].  [l] is [cur] followed by the attributes
    not yet fetched, [cnt] and [inArray] are the loop variables of the
    source; the loop ends at the [break] of the [last] branch.  The result
    is the visited attributes as the recursive calls leave them, and the
    bytes written. *)
Section encodeLoop.
Variable enc : fastJsonNode -> fastJsonNode * bytes.

Fixpoint encodeLoop (l : list fastJsonNode) (cnt : Z) (inArray : bool)
  : list fastJsonNode * bytes :=
  match l with
  | [] => ([], [])
  | cur :: rest =>
      let '(cur', body) := enc cur in
      let arr := isChild cur || list_ cur in
      match rest with
      | next :: _ =>
          if (attr cur =? attr next)%string then
            let opening := if cnt =? 1 then writeKey cur ++ B "[" else [] in
            let inArray1 := if cnt =? 1 then true else inArray in
            let '(rest', out) := encodeLoop rest (cnt + 1) inArray1 in
            (cur' :: rest', opening ++ body ++ B "," ++ out)
          else
            let opening :=
              if cnt =? 1
              then writeKey cur ++ (if arr then B "[" else [])
              else [] in
            let inArray1 := if (cnt =? 1) && arr then true else inArray in
            let closing := if negb (cnt =? 1) || arr then B "]" else [] in
            let inArray2 :=
              if negb (cnt =? 1) || arr then false else inArray1 in
            let '(rest', out) := encodeLoop rest 1 inArray2 in
            (cur' :: rest', opening ++ body ++ closing ++ B "," ++ out)
      | [] =>
          let key := if cnt =? 1 then writeKey cur else [] in
          let opening := if arr && negb inArray then B "[" else [] in
          let closing := if negb (cnt =? 1) || arr then B "]" else [] in
          ([cur'], key ++ opening ++ body ++ closing)
      end
  end.
End encodeLoop.

(** [for i, a := range attrs { a.order = i }] *)
Definition setOrders (l : list fastJsonNode) : list fastJsonNode :=
  imap (fun i a => set_order (Z.of_nat i) a) l.

(** [fj.encode(out)]: the node as the call leaves it, and the bytes
    written to [out].  The source assigns the [order] fields before the
    loop; [encode] never reads [order], so the assignment is applied to the
    attributes once the recursive calls have refreshed their own.

    The node is a value here and a pointer in the source.  The rows
    [normalize] builds hold the same node in several rows, and such a node
    keeps the [order] written last, under whichever row that was; the tree
    handed back here is the one of a tree without shared nodes.  Nothing
    below states what the [order] fields are after [encode]: the bytes do
    not depend on them ([encode_bytes_eraseOrder]), and apart from them the
    tree is unchanged ([encode_state_eraseOrder]). *)
Fixpoint encode (fj : fastJsonNode) : fastJsonNode * bytes :=
  match attrs fj with
  | [] => (fj, scalarVal fj)
  | _ :: _ =>
      let '(l', out) := encodeLoop encode (attrs fj) 1 false in
      (set_attrs (setOrders l') fj, B "{" ++ out ++ B "}")
  end.

(** ** The normalizer *)

Definition tooManyResults : string :=
  "Couldn't evaluate @normalize directive - too many results".

(** The inner loop of [merge] for one parent row [pa]: [cnt] is the running
    element count, [mergedList] the rows produced so far. *)
Fixpoint mergeInner (pa : row) (child : list row) (cnt : Z)
    (mergedList : list row) : result (Z * list row) :=
  match child with
  | [] => Ok (cnt, mergedList)
  | ca :: child' =>
      let cnt := cnt + (len pa + len ca) in
      if cnt >? NormalizeNodeLimit then Err tooManyResults
      else mergeInner pa child' cnt (mergedList ++ [pa ++ ca])
  end.

(** The outer loop of [merge]. *)
Fixpoint mergeOuter (parent child : list row) (cnt : Z)
    (mergedList : list row) : result (list row) :=
  match parent with
  | [] => Ok mergedList
  | pa :: parent' =>
      match mergeInner pa child cnt mergedList with
      | Err e => Err e
      | Ok (cnt, mergedList) => mergeOuter parent' child cnt mergedList
      end
  end.

Definition merge (parent child : list row) : result (list row) :=
  if len parent =? 0 then Ok child
  else mergeOuter parent child 0 [].

(** The scan for the first and last index holding a field named uid. *)
Fixpoint uidRange (slice : row) (i first last : Z) : Z * Z :=
  match slice with
  | [] => (first, last)
  | x :: rest =>
      if (attr x =? "uid")%string
      then uidRange rest (i + 1) (if first =? -1 then i else first) i
      else uidRange rest (i + 1) first last
  end.

(** The body of the last loop of [normalize], after the row is sorted. *)
Definition dropUids (slice : row) : row :=
  let '(first, last) := uidRange slice 0 (-1) 0 in
  if negb (first =? -1) && negb (first =? last) then
    if first =? 0 then drop (Z.to_nat last) slice
    else take (Z.to_nat first) slice ++ drop (Z.to_nat last) slice
  else slice.

(** The grouping loop of [normalize] over [fj.attrs[ci:]].  [grp = None] is
    the outer loop looking at [attrs[ci]]; [grp = Some (name, childSlice)]
    is the inner loop, collecting the rows of the consecutive attributes
    named [name]; leaving the inner loop merges [childSlice] into
    [parentSlice]. *)
Section mergeGroups.
Variable norm : fastJsonNode -> result (list row).

Fixpoint mergeGroups (l : list fastJsonNode)
    (grp : option (string * list row)) (parentSlice : list row)
  : result (list row) :=
  match l with
  | [] =>
      match grp with
      | None => Ok parentSlice
      | Some (_, childSlice) => merge parentSlice childSlice
      end
  | a :: l' =>
      let start (parentSlice : list row) :=
        if isChild a then
          match norm a with
          | Err e => Err e
          | Ok normalized => mergeGroups l' (Some (attr a, normalized)) parentSlice
          end
        else mergeGroups l' None parentSlice in
      match grp with
      | None => start parentSlice
      | Some (name, childSlice) =>
          if (name =? attr a)%string then
            match norm a with
            | Err e => Err e
            | Ok normalized =>
                mergeGroups l' (Some (name, childSlice ++ normalized)) parentSlice
            end
          else
            match merge parentSlice childSlice with
            | Err e => Err e
            | Ok parentSlice => start parentSlice
            end
      end
  end.
End mergeGroups.

Fixpoint normalize (fj : fastJsonNode) : result (list row) :=
  let cnt := len (List.filter isChild (attrs fj)) in
  if cnt =? 0 then Ok [attrs fj]
  else
    let own := List.filter (fun a => negb (isChild a)) (attrs fj) in
    match mergeGroups normalize (attrs fj) None [own] with
    | Err e => Err e
    | Ok parentSlice =>
        Ok (map (fun slice => dropUids (sort_Sort slice)) parentSlice)
    end.

(** ** Loops *)

(** A [for _, x := range l] loop over a state [S] whose body either goes on
    to the next element (error [None]) or leaves the enclosing function
    with [return err]; [None] as a whole is a panic. *)
Section forRange.
Context {A S : Type}.
Variable body : A -> S -> option (S * error).

Fixpoint forRange (l : list A) (s : S) : option (S * error) :=
  match l with
  | [] => Some (s, None)
  | x :: l' =>
      match body x s with
      | Some (s', None) => forRange l' s'
      | r => r
      end
  end.
End forRange.

(** A loop whose body cannot return from the function. *)
Definition forEach {A S : Type} (body : A -> S -> option S)
    (l : list A) (s : S) : option S :=
  foldl (fun acc x => acc ≫= body x) (Some s) l.

(** The elements of [l] paired with their index. *)
Definition indexed {A} (l : list A) : list (Z * A) :=
  imap (fun i x => (Z.of_nat i, x)) l.

(** ** Group-by, counts and aggregations *)

Definition addGroupby (sg : SubGraph) (res : groupResults) (fname : string)
    (fj : fastJsonNode) : option fastJsonNode :=
  if len (group res) =? 0 then Some fj
  else
    g ← forEach (fun grp g =>
           uc ← forEach (fun it uc => AddValue (gp_attr it) (key it) uc)
                  (keys grp) (New "@groupby");
           uc ← forEach (fun it uc => AddValue (gp_attr it) (key it) uc)
                  (aggregates grp) uc;
           Some (AddListChild "@groupby" uc g))
         (group res) (New fname);
    Some (AddListChild fname g fj).

Definition addCountAtRoot (sg : SubGraph) (fj : fastJsonNode)
  : option fastJsonNode :=
  let c := types.ValueForType types.IntID (types.VInt64 (len (DestUIDs sg))) in
  let n1 := New (params.Alias (Params sg)) in
  let field := params.uidCountAlias (Params sg) in
  let field := if (field =? "")%string then "count"%string else field in
  n1 ← AddValue field c n1;
  Some (AddListChild (params.Alias (Params sg)) n1 fj).

Definition aggWithVarFieldName (pc : SubGraph) : string :=
  let p := Params pc in
  if negb (params.Alias p =? "")%string then params.Alias p
  else
    match params.NeedsVar p with
    | [] => ("val(" +:+ params.Var p +:+ ")")%string
    | v :: _ =>
        let fieldName := ("val(" +:+ gql.Name v +:+ ")")%string in
        match SrcFunc pc with
        | Some f => (Name f +:+ "(" +:+ fieldName +:+ ")")%string
        | None => fieldName
        end
    end.

Definition addAggregations (sg : SubGraph) (fj : fastJsonNode)
  : option (fastJsonNode * error) :=
  '(fj, err) ← forRange (fun child fj =>
      let p := Params child in
      let continue_with (aggVal : types.Val) :=
        if params.Normalize p && (params.Alias p =? "")%string
        then Some (fj, None)
        else
          let fieldName := aggWithVarFieldName child in
          n1 ← AddValue fieldName aggVal (New fieldName);
          Some (AddListChild (params.Alias (Params sg)) n1 fj, None) in
      match params.uidToVal p !! 0 with
      | Some aggVal => continue_with aggVal
      | None =>
          if len (params.NeedsVar p) =? 0
          then Some (fj, Some "Only aggregated variables allowed within empty block."%string)
          else continue_with (types.mkVal types.FloatID (types.VFloat64 0%float))
      end) (Children sg) fj;
  match err with
  | Some e => Some (fj, Some e)
  | None =>
      if IsEmpty fj
      then Some (AddListChild (params.Alias (Params sg)) zeroNode fj, None)
      else Some (fj, None)
  end.

(** ** Helpers of the traversal *)

Definition fieldName (sg : SubGraph) : string :=
  if negb (params.Alias (Params sg) =? "")%string
  then params.Alias (Params sg) else Attr sg.

Definition addCount (pc : SubGraph) (count : Z) (dst : fastJsonNode)
  : option fastJsonNode :=
  let p := Params pc in
  if params.Normalize p && (params.Alias p =? "")%string then Some dst
  else
    let c := types.ValueForType types.IntID (types.VInt64 count) in
    let fieldName :=
      if (params.Alias p =? "")%string
      then ("count(" +:+ Attr pc +:+ ")")%string else params.Alias p in
    AddValue fieldName c dst.

Definition addInternalNode (pc : SubGraph) (uid : Z) (dst : fastJsonNode)
  : option (fastJsonNode * error) :=
  match params.uidToVal (Params pc) !! uid with
  | None => Some (dst, None)
  | Some sv =>
      match types.Value sv with
      | types.VNil => Some (dst, None)
      | _ =>
          dst ← AddValue (aggWithVarFieldName pc) sv dst;
          Some (dst, None)
      end
  end.

Definition addCheckPwd (pc : SubGraph) (vals : list pb.TaskValue)
    (dst : fastJsonNode) : option fastJsonNode :=
  let c :=
    types.ValueForType types.BoolID
      (types.VBool match vals with [] => false | tv :: _ => task_ToBool tv end) in
  let p := Params pc in
  let fieldName :=
    if (params.Alias p =? "")%string
    then ("checkpwd(" +:+ Attr pc +:+ ")")%string else params.Alias p in
  AddValue fieldName c dst.

Definition alreadySeen (parentIds : list Z) (uid : Z) : bool :=
  existsb (fun id => id =? uid) parentIds.

Definition facetName (fieldName : string) (f : api.Facet) : string :=
  if negb (api.Alias f =? "")%string then api.Alias f
  else (fieldName +:+ FacetDelimeter +:+ api.Key f)%string.

(** [for _, f := range fs { fVal, err := facets.ValFor(f); ...;
    n.AddValue(facetName(fieldName, f), fVal) }] *)
Definition addFacets (fieldName : string) (fs : list api.Facet)
    (n : fastJsonNode) : option (fastJsonNode * error) :=
  forRange (fun f n =>
      match facets_ValFor f with
      | Err e => Some (n, Some e)
      | Ok fVal =>
          n ← AddValue (facetName fieldName f) fVal n;
          Some (n, None)
      end) fs n.

(** ** The traversal *)

Definition errMismatch (nf nu : Z) : string :=
  ("Length of facetsMatrix and uidMatrix mismatch: " +:+ decimal nf
     +:+ " vs " +:+ decimal nu)%string.

Definition errGroupby (idx n : Z) : string :=
  ("Unexpected length while adding Groupby. Idx: [" +:+ decimal idx
     +:+ "], len: [" +:+ decimal n +:+ "]")%string.

Definition errLangTags : string :=
  "pb.error: all lang tags should be either present or absent".

(** The body of the loop over [sg.Children] for the child [pc].  [rec] is
    [pc.preTraverse], [sgIds] is [sg.Params.parentIds] as the loop finds
    it, [uid] the uid [sg] is traversed for. *)
Section traverseChild.
Variable rec : Stacks -> Z -> fastJsonNode
               -> option (Stacks * fastJsonNode * error).
Variables (sg pc : SubGraph) (sgIds : list Z) (uid : Z).

(** The loop over [ul.Uids] of the edge branch, for one
    [(childIdx, childUID)]. *)
Definition traverseUid (fieldName : string) (fcsList : list (list api.Facet))
    (entry : Z * Z) (s : childState) : option (childState * error) :=
  let '(childIdx, childUID) := entry in
  let '(kst, dst, invalidUids) := s in
  if (fieldName =? "")%string || bool_decide (childUID ∈ invalidUids)
  then Some (s, None)
  else
    '(kst, uc, rerr) ← rec kst childUID (New fieldName);
    match rerr with
    | Some e =>
        if (e =? "_INV_")%string
        then Some ((kst, dst, {[childUID]} ∪ invalidUids), None)
        else Some ((kst, dst, invalidUids), Some e)
    | None =>
        '(uc, ferr) ←
          (if bool_decide (is_Some (params.Facet (Params pc)))
              && (len fcsList >? childIdx)
           then fs ← index fcsList childIdx; addFacets fieldName fs uc
           else Some (uc, None));
        match ferr with
        | Some e => Some ((kst, dst, invalidUids), Some e)
        | None =>
            if negb (IsEmpty uc) then
              let uc :=
                if params.GetUid (Params sg) then SetUID childUID "uid" uc
                else uc in
              let dst :=
                if List_ pc then AddListChild fieldName uc dst
                else AddMapChild fieldName uc false dst in
              Some ((kst, dst, invalidUids), None)
            else Some ((kst, dst, invalidUids), None)
        end
    end.

(** The branch for a predicate with destination uids at row [idx]. *)
Definition traverseEdges (fieldName : string) (idx : Z) (ul : list Z)
    (s : childState) : option (childState * error) :=
  let p := Params pc in
  fcsList ← (if bool_decide (is_Some (params.Facet p))
             then index (facetsMatrix pc) idx else Some []);
  let '(kst, dst, invalidUids) := s in
  let kst :=
    if params.IgnoreReflex (Params sg) then mkStacks sgIds (kids kst)
    else kst in
  '(s, err) ← forRange (traverseUid fieldName fcsList) (indexed ul)
                (kst, dst, invalidUids);
  match err with
  | Some e => Some (s, Some e)
  | None =>
      let '(kst, dst, invalidUids) := s in
      if params.uidCount p
         && negb ((params.uidCountAlias p =? "")%string && params.Normalize p)
      then
        let c := types.ValueForType types.IntID (types.VInt64 (len ul)) in
        let alias :=
          if (params.uidCountAlias p =? "")%string then "count"%string
          else params.uidCountAlias p in
        uc ← AddValue alias c (New fieldName);
        Some ((kst, AddListChild fieldName uc dst, invalidUids), None)
      else Some (s, None)
  end.

(** The loop over [pc.valueMatrix[idx].Values], for one [(i, tv)]. *)
Definition traverseValue (fieldName : string) (idx : Z)
    (entry : Z * pb.TaskValue) (dst : fastJsonNode)
  : option (fastJsonNode * error) :=
  let '(i, tv) := entry in
  let p := Params pc in
  match convertWithBestEffort tv (Attr pc) with
  | Err convErr => Some (dst, Some convErr)
  | Ok sv =>
      let plain :=
        let encodeAsList := List_ pc && (len (params.Langs p) =? 0) in
        if negb (params.Normalize p) then
          dst ← AddListValue fieldName sv encodeAsList dst; Some (dst, None)
        else if negb (params.Alias p =? "")%string then
          dst ← AddListValue fieldName sv encodeAsList dst; Some (dst, None)
        else Some (dst, None) in
      if params.expandAll p then
        langs ← index (LangTags pc) idx;
        if negb (len langs =? 0) then
          match index langs i with
          | None => Some (dst, Some errLangTags)
          | Some lang =>
              let fieldNameWithTag :=
                if negb (lang =? "")%string
                then (fieldName +:+ "@" +:+ lang)%string else fieldName in
              let encodeAsList :=
                List_ pc && (Z.of_nat (String.length lang) =? 0) in
              dst ← AddListValue fieldNameWithTag sv encodeAsList dst;
              Some (dst, None)
          end
        else plain
      else plain
  end.

(** The branch for a predicate holding scalar values at row [idx]. *)
Definition traverseValues (fname : string) (idx : Z)
    (dst : fastJsonNode) : option (fastJsonNode * error) :=
  let p := Params pc in
  let fname :=
    if (params.Alias p =? "")%string && (len (params.Langs p) >? 0)
    then (fname +:+ "@" +:+ String.concat ":" (params.Langs p))%string
    else fname in
  if (Attr pc =? "uid")%string then
    Some (SetUID uid (fieldName pc) dst, None)
  else
    '(dst, err) ←
      (if len (facetsMatrix pc) >? idx then
         fl ← index (facetsMatrix pc) idx;
         match fl with
         | fs :: _ => addFacets fname fs dst
         | [] => Some (dst, None)
         end
       else Some (dst, None));
    match err with
    | Some e => Some (dst, Some e)
    | None =>
        if len (valueMatrix pc) <=? idx then Some (dst, None)
        else
          vals ← index (valueMatrix pc) idx;
          forRange (traverseValue fname idx) (indexed vals) dst
    end.

Definition traverseChild (s : childState) : option (childState * error) :=
  let p := Params pc in
  let '(kst, dst, invalidUids) := s in
  let with_dst (r : option (fastJsonNode * error)) :=
    '(dst, err) ← r; Some ((kst, dst, invalidUids), err) in
  let always (r : option fastJsonNode) :=
    dst ← r; Some ((kst, dst, invalidUids), None) in
  if params.ignoreResult p then Some (s, None)
  else if params.isInternal p then
    if negb (params.Expand p =? "")%string then Some (s, None)
    else if params.Normalize p && (params.Alias p =? "")%string
    then Some (s, None)
    else with_dst (addInternalNode pc uid dst)
  else
    let um := rowsOf (uidMatrix pc) in
    if len um =? 0 then Some (s, None)
    else if (len (facetsMatrix pc) >? 0)
            && negb (len (facetsMatrix pc) =? len um)
    then Some (s, Some (errMismatch (len (facetsMatrix pc)) (len um)))
    else
      let idx := algo_IndexOf (SrcUIDs pc) uid in
      if idx <? 0 then Some (s, None)
      else if params.isGroupBy p then
        match index (GroupbyRes pc) idx with
        | None => Some (s, Some (errGroupby idx (len (GroupbyRes pc))))
        | Some res => always (addGroupby pc res (fieldName pc) dst)
        end
      else
        let fieldName := fieldName pc in
        let ul := default [] (index um idx) in
        if len (counts pc) >? 0 then
          always (count ← index (counts pc) idx; addCount pc count dst)
        else if bool_decide (Name <$> SrcFunc pc = Some "checkpwd"%string)
        then
          always (vals ← index (valueMatrix pc) idx; addCheckPwd pc vals dst)
        else if (idx <? len um) && (len ul >? 0) then
          traverseEdges fieldName idx ul s
        else with_dst (traverseValues fieldName idx dst).
End traverseChild.

(** The loop of [preTraverse] over [sg.Children]; [rec] is [preTraverse],
    [ids] is [sg.Params.parentIds], [ks] the stacks of the children. *)
Section traverseChildren.
Variable rec : SubGraph -> Stacks -> Z -> fastJsonNode
               -> option (Stacks * fastJsonNode * error).

Definition traverseChildren (sg : SubGraph) (ids : list Z) (uid : Z)
    (ks : list Stacks) (dst : fastJsonNode) : option (loopState * error) :=
  forRange (fun pc (s : loopState) =>
      let '(k, ks, dst, invalidUids) := s in
      '(kst, dst, invalidUids, err) ←
        traverseChild (rec pc) sg pc ids uid (kidAt k ks, dst, invalidUids);
      Some ((S k, setKid k kst ks, dst, invalidUids), err))
    (Children sg) (O, ks, dst, ∅).
End traverseChildren.

(** [sg.preTraverse(uid, dst)] with the stacks [st] of [sg]: the stacks and
    the destination node as the call leaves them, and the error
    returned. *)
Fixpoint preTraverse (sg : SubGraph) (st : Stacks) (uid : Z)
    (dst : fastJsonNode) : option (Stacks * fastJsonNode * error) :=
  let p := Params sg in
  if params.IgnoreReflex p && alreadySeen (parentIds st) uid
  then Some (st, dst, None)
  else
    let ids :=
      if params.IgnoreReflex p then parentIds st ++ [uid] else parentIds st in
    '(s, err) ← traverseChildren preTraverse sg ids uid (kids st) dst;
    let '(_, ks, dst, _) := s in
    match err with
    | Some e => Some (mkStacks ids ks, dst, Some e)
    | None =>
        let ids :=
          if params.IgnoreReflex p && (len ids >? 0) then removelast ids
          else ids in
        let dst :=
          if (params.GetUid p && negb (IsEmpty dst)) || params.shortest p
          then SetUID uid "uid" dst else dst in
        dst ←
          match pathMeta sg with
          | Some m =>
              AddValue "_weight_"
                (types.mkVal types.FloatID (types.VFloat64 (weight m))) dst
          | None => Some dst
          end;
        Some (mkStacks ids ks, dst, None)
    end.

(** ** Root sub-graphs and the assembler *)

(** The body of the loop over [sg.uidMatrix[0].Uids]. *)
Definition processUid (sg : SubGraph) (uid : Z) (s : rootState)
  : option (rootState * error) :=
  let '(st, fj, hasChild) := s in
  let p := Params sg in
  if algo_IndexOf (DestUIDs sg) uid <? 0 then Some (s, None)
  else
    '(st, n1, err) ← preTraverse sg st uid (New (params.Alias p));
    match err with
    | Some e =>
        if (e =? "_INV_")%string then Some ((st, fj, hasChild), None)
        else Some ((st, fj, hasChild), Some e)
    | None =>
        if IsEmpty n1 then Some ((st, fj, hasChild), None)
        else if negb (params.Normalize p)
        then Some ((st, AddListChild (params.Alias p) n1 fj, true), None)
        else
          match normalize n1 with
          | Err e => Some ((st, fj, true), Some e)
          | Ok normalized =>
              Some ((st,
                     foldl (fun fj c =>
                              AddListChild (params.Alias p)
                                (set_attrs c zeroNode) fj)
                       fj normalized,
                     true), None)
          end
    end.

Definition errGroupbyRes : string := "Expected GroupbyRes to have length > 0.".

(** [processNodeUids(fj, sg)] with the stacks [st] of [sg]. *)
Definition processNodeUids (fj : fastJsonNode) (sg : SubGraph) (st : Stacks)
  : option (Stacks * fastJsonNode * error) :=
  let p := Params sg in
  if params.IsEmpty p then
    '(fj, err) ← addAggregations sg fj; Some (st, fj, err)
  else
    match uidMatrix sg with
    | None => Some (st, AddListChild (params.Alias p) zeroNode fj, None)
    | Some um =>
        '(hasChild, fj) ←
          (if params.uidCount p
              && negb ((params.uidCountAlias p =? "")%string
                       && params.Normalize p)
           then fj ← addCountAtRoot sg fj; Some (true, fj)
           else Some (false, fj));
        if params.isGroupBy p then
          match GroupbyRes sg with
          | [] => Some (st, fj, Some errGroupbyRes)
          | res :: _ =>
              fj ← addGroupby sg res (params.Alias p) fj; Some (st, fj, None)
          end
        else
          uids ← index um 0;
          '(s, err) ← forRange (processUid sg) uids (st, fj, hasChild);
          let '(st, fj, hasChild) := s in
          match err with
          | Some e => Some (st, fj, Some e)
          | None =>
              if negb hasChild
              then Some (st, AddListChild (params.Alias p) zeroNode fj, None)
              else Some (st, fj, None)
          end
    end.

(** What [toFastJSON] writes to [bufw] for the root node [n]. *)
Definition rootBytes (n : fastJsonNode) : bytes :=
  if len (attrs n) =? 0 then B "{}" else (encode n).2.

(** [sg.toFastJSON(l)] with the stacks [st] of [sg]; the latency
    bookkeeping of [l] is left out.  On an error the source returns no
    bytes. *)
Definition toFastJSON (sg : SubGraph) (st : Stacks)
  : option (Stacks * result bytes) :=
  '(s, err) ←
    forRange (fun child (s : nat * list Stacks * fastJsonNode) =>
        let '(k, ks, n) := s in
        '(kst, n, err) ← processNodeUids n child (kidAt k ks);
        Some ((S k, setKid k kst ks, n), err))
      (Children sg) (O, kids st, New "_root_");
  let '(_, ks, n) := s in
  let st := mkStacks (parentIds st) ks in
  match err with
  | Some e => Some (st, Err e)
  | None => Some (st, Ok (rootBytes n))
  end.

Definition zeroParams : params.t :=
  params.mk "" false false false "" false false false ∅ [] "" false false ""
    None [] false false.

(** [&SubGraph{}] *)
Definition zeroSubGraph : SubGraph :=
  mkSubGraph "" zeroParams [] [] None [] [] [] [] [] None false None [].

Definition set_GetUid (b : bool) (p : params.t) : params.t :=
  params.mk (params.Alias p) b (params.IsEmpty p) (params.uidCount p)
    (params.uidCountAlias p) (params.Normalize p) (params.isGroupBy p)
    (params.isInternal p) (params.uidToVal p) (params.NeedsVar p)
    (params.Var p) (params.IgnoreReflex p) (params.ignoreResult p)
    (params.Expand p) (params.Facet p) (params.Langs p) (params.expandAll p)
    (params.shortest p).

(** [ToJson(l, sgl)] for sub-graphs not traversed before. *)
Definition ToJson (sgl : list SubGraph) : option (Stacks * result bytes) :=
  let kept :=
    List.filter (fun sg =>
        negb ((params.Alias (Params sg) =? "var")%string
              || (params.Alias (Params sg) =? "shortest")%string)) sgl in
  let getUid := existsb (fun sg => params.GetUid (Params sg)) kept in
  toFastJSON
    (mkSubGraph "" (set_GetUid getUid zeroParams) [] [] None [] [] [] [] []
       None false None kept)
    emptyStacks.

End OutputNode.

(** * Notions used in the statements *)

(** The rows [merge] builds: every parent row followed by every child row,
    parent rows outermost. *)
Definition crossProduct (parent child : list row) : list row :=
  flat_map (fun pa => map (fun ca => pa ++ ca) child) parent.

Fixpoint prefixSums (acc : Z) (l : list Z) : list Z :=
  match l with
  | [] => []
  | x :: l' => (acc + x) :: prefixSums (acc + x) l'
  end.

(** The value of [cnt] after each combination [merge] produces. *)
Definition runningCounts (parent child : list row) : list Z :=
  prefixSums 0 (map len (crossProduct parent child)).

Definition sumZ (l : list Z) : Z := foldr Z.add 0 l.

(** The tree with every [order] field reset; what is left is all that
    [encode] reads. *)
Fixpoint eraseOrder (fj : fastJsonNode) : fastJsonNode :=
  mkNode (attr fj) 0 (isChild fj) (scalarVal fj)
    (map eraseOrder (attrs fj)) (list_ fj).

Definition isUid (x : fastJsonNode) : bool := (attr x =? "uid")%string.
Definition notUid (x : fastJsonNode) : bool := negb (isUid x).

(** The uid field in the last position of a row, if the row has one. *)
Definition lastUid (s : row) : option fastJsonNode :=
  last (List.filter isUid s).

Section Skipped.
Context `{Ext : Externals}.

(** The pass of the loop of [processNodeUids] for [uid] attaches nothing:
    the uid is filtered out, or its subtree is pruned, or it comes back
    empty.  [st'] is the stacks of [sg] after the pass. *)
Definition skipped (sg : SubGraph) (st : Stacks) (uid : Z) (st' : Stacks)
  : Prop :=
  (algo_IndexOf (DestUIDs sg) uid < 0 /\ st' = st) \/
  (0 <= algo_IndexOf (DestUIDs sg) uid /\
   exists n1 err,
     preTraverse sg st uid (New (params.Alias (Params sg)))
     = Some (st', n1, err) /\
     (err = Some "_INV_"%string \/ (err = None /\ IsEmpty n1 = true))).

(** No uid of the row yields a subtree that is attached. *)
Inductive noneAttached (sg : SubGraph) : Stacks -> list Z -> Stacks -> Prop :=
| noneAttached_nil st : noneAttached sg st [] st
| noneAttached_cons st uid st1 uids st' :
    skipped sg st uid st1 -> noneAttached sg st1 uids st' ->
    noneAttached sg st (uid :: uids) st'.

End Skipped.

Section OpenPath.
Context `{Ext : Externals}.

(** The body of [preTraverse] with [rec] for the calls it makes on the
    children. *)
Definition preTraverseWith
    (rec : SubGraph -> Stacks -> Z -> fastJsonNode
           -> option (Stacks * fastJsonNode * error))
    (sg : SubGraph) (st : Stacks) (uid : Z) (dst : fastJsonNode)
  : option (Stacks * fastJsonNode * error) :=
  let p := Params sg in
  if params.IgnoreReflex p && alreadySeen (parentIds st) uid
  then Some (st, dst, None)
  else
    let ids :=
      if params.IgnoreReflex p then parentIds st ++ [uid] else parentIds st in
    '(s, err) ← traverseChildren rec sg ids uid (kids st) dst;
    let '(_, ks, dst, _) := s in
    match err with
    | Some e => Some (mkStacks ids ks, dst, Some e)
    | None =>
        let ids :=
          if params.IgnoreReflex p && (len ids >? 0) then removelast ids
          else ids in
        let dst :=
          if (params.GetUid p && negb (IsEmpty dst)) || params.shortest p
          then SetUID uid "uid" dst else dst in
        dst ←
          match pathMeta sg with
          | Some m =>
              AddValue "_weight_"
                (types.mkVal types.FloatID (types.VFloat64 (weight m))) dst
          | None => Some dst
          end;
        Some (mkStacks ids ks, dst, None)
    end.

Definition offPath : string := "parentIds is not the open recursion path".

(** The stack [st] is the one expected, if one is. *)
Definition onPath (expected : option (list Z)) (st : Stacks) : bool :=
  match expected with
  | Some path => bool_decide (parentIds st = path)
  | None => true
  end.

(** [preTraverse] with a check at the entry of every call, the nested ones
    included: a call made on a child of a sub-graph that has IgnoreReflex
    set goes on only if the stack it finds is the stack its parent was
    entered with followed by the uid the parent is traversed for, and
    fails with [offPath] otherwise.  [expected] is that stack; below a
    sub-graph without IgnoreReflex nothing is expected.  Where every
    sub-graph has IgnoreReflex set the expected stack of a call is the
    stack the outermost call was entered with followed by the uids of the
    calls that are open, outermost first. *)
Fixpoint preTraverseOnPath (expected : option (list Z)) (sg : SubGraph)
    (st : Stacks) (uid : Z) (dst : fastJsonNode) {struct sg}
  : option (Stacks * fastJsonNode * error) :=
  if onPath expected st
  then
    preTraverseWith
      (preTraverseOnPath
         (if params.IgnoreReflex (Params sg) then Some (parentIds st ++ [uid])
          else None))
      sg st uid dst
  else Some (st, dst, Some offPath).

(** The routines of other packages never answer with the error a subtree
    is pruned for, so that no call of [preTraverse] returns it. *)
Definition neverPrunes : Prop :=
  (forall f e, facets_ValFor f = Err e -> e <> "_INV_"%string) /\
  (forall tv a e, convertWithBestEffort tv a = Err e -> e <> "_INV_"%string).

(** What the loops ask of the calls on a child: [rec1] and [rec2] agree on
    a child stack that is the expected one, and [rec2] leaves the stack as
    it found it when it returns no error and never returns the pruning
    error. *)
Definition agreeOn (expected : option (list Z))
    (rec1 rec2 : Stacks -> Z -> fastJsonNode
                 -> option (Stacks * fastJsonNode * error)) : Prop :=
  (forall kst u n, onPath expected kst = true -> rec1 kst u n = rec2 kst u n) /\
  (forall kst u n kst' n',
      rec2 kst u n = Some (kst', n', None) -> parentIds kst' = parentIds kst) /\
  (forall kst u n kst' n' e,
      rec2 kst u n = Some (kst', n', Some e) -> e <> "_INV_"%string).

End OpenPath.

(** ** Names, runs of equal names, fields *)

(** The names of the attached nodes, in order. *)
Definition names (fj : fastJsonNode) : list string := map attr (attrs fj).

(** The node is written as an array even when it is alone under its name. *)
Definition arrayed (c : fastJsonNode) : bool := isChild c || list_ c.

Fixpoint joinWith (sep : bytes) (l : list bytes) : bytes :=
  match l with
  | [] => []
  | x :: l' =>
      match l' with
      | [] => x
      | _ :: _ => x ++ sep ++ joinWith sep l'
      end
  end.

(** One more attribute in front of attributes already split into runs of
    equal names. *)
Definition groupStep (c : fastJsonNode) (gs : list (list fastJsonNode))
  : list (list fastJsonNode) :=
  match gs with
  | (n :: g) :: gs' =>
      if (attr c =? attr n)%string then (c :: n :: g) :: gs' else [c] :: gs
  | _ => [c] :: gs
  end.

(** The attributes split into maximal runs of consecutive equal names. *)
Definition groupAdjacent (l : list fastJsonNode) : list (list fastJsonNode) :=
  foldr groupStep [] l.

(** One run as a field: a run of one is a bare value unless it is
    [arrayed], a longer run is one array; [body] gives the bytes of a
    node. *)
Definition renderGroup (body : fastJsonNode -> bytes) (g : list fastJsonNode)
  : bytes :=
  match g with
  | [] => []
  | [c] =>
      writeKey c ++ (if arrayed c then B "[" ++ body c ++ B "]" else body c)
  | c :: _ :: _ => writeKey c ++ B "[" ++ joinWith (B ",") (map body g) ++ B "]"
  end.

(** The runs as fields, separated by commas. *)
Definition renderFields (body : fastJsonNode -> bytes)
    (l : list fastJsonNode) : bytes :=
  joinWith (B ",") (map (renderGroup body) (groupAdjacent l)).

(** The fields the encoder writes for the attributes [l], one for each
    run of equal names. *)
Definition fieldsOf (body : fastJsonNode -> bytes) (l : list fastJsonNode)
  : list bytes :=
  map (renderGroup body) (groupAdjacent l).

(** The type assertion [valToBytes] makes on [v.Value] fails. *)
Definition assertionFails (v : types.Val) : bool :=
  match types.Tid v, types.Value v with
  | types.BoolID, types.VBool _ => false
  | types.BoolID, _ => true
  | types.DateTimeID, types.VTime _ => false
  | types.DateTimeID, _ => true
  | types.GeoID, types.VGeom _ => false
  | types.GeoID, _ => true
  | types.PasswordID, types.VString _ => false
  | types.PasswordID, _ => true
  | _, _ => false
  end.


(** * Reference externals

    One implementation of [Externals], to run the definitions on concrete
    inputs: a stable merge sort for [sort.Sort], a linear search for
    [algo.IndexOf], plain quoting for the renderers. *)

Definition notAfter (a b : fastJsonNode) : Prop := Less b a = false.

Definition quoteString (v : types.GoValue) : bytes :=
  match v with
  | types.VString s => dq ++ B s ++ dq
  | types.VBytes b => dq ++ b ++ dq
  | _ => []
  end.

Fixpoint linearIndexOf (l : list Z) (uid : Z) (i : Z) : Z :=
  match l with
  | [] => -1
  | x :: l' => if x =? uid then i else linearIndexOf l' uid (i + 1)
  end.

(** ** Example inputs *)

Definition scalar (a v : string) (o : Z) : fastJsonNode :=
  mkNode a o false (B v) [] false.

Definition object (a : string) (child : bool) (l : list fastJsonNode)
  : fastJsonNode :=
  mkNode a 0 child [] l false.

(** A node with two uid fields and no structural child. *)
Definition twoUids : fastJsonNode :=
  object "me" false [scalar "uid" "1" 0; scalar "uid" "2" 0].

(** A node with its own uid field and a structural child carrying another;
    the [order] fields make the sorted row unique. *)
Definition nestedUids : fastJsonNode :=
  object "me" false
    [scalar "uid" "1" 0; object "friend" true [scalar "uid" "2" 1]].

(** Siblings named a, a, b, a. *)
Definition aaba : fastJsonNode :=
  object "me" false
    [object "a" true [scalar "x" "1" 0]; object "a" true [scalar "x" "2" 0];
     scalar "b" "3" 0; object "a" true [scalar "x" "4" 0]].

Definition withAlias (alias : string) (p : params.t) : params.t :=
  params.mk alias (params.GetUid p) (params.IsEmpty p) (params.uidCount p)
    (params.uidCountAlias p) (params.Normalize p) (params.isGroupBy p)
    (params.isInternal p) (params.uidToVal p) (params.NeedsVar p)
    (params.Var p) (params.IgnoreReflex p) (params.ignoreResult p)
    (params.Expand p) (params.Facet p) (params.Langs p) (params.expandAll p)
    (params.shortest p).

Definition withIgnoreReflex (p : params.t) : params.t :=
  params.mk (params.Alias p) (params.GetUid p) (params.IsEmpty p)
    (params.uidCount p) (params.uidCountAlias p) (params.Normalize p)
    (params.isGroupBy p) (params.isInternal p) (params.uidToVal p)
    (params.NeedsVar p) (params.Var p) true (params.ignoreResult p)
    (params.Expand p) (params.Facet p) (params.Langs p) (params.expandAll p)
    (params.shortest p).

Definition withUidCount (p : params.t) : params.t :=
  params.mk (params.Alias p) (params.GetUid p) (params.IsEmpty p)
    true (params.uidCountAlias p) (params.Normalize p)
    (params.isGroupBy p) (params.isInternal p) (params.uidToVal p)
    (params.NeedsVar p) (params.Var p) (params.IgnoreReflex p)
    (params.ignoreResult p) (params.Expand p) (params.Facet p)
    (params.Langs p) (params.expandAll p) (params.shortest p).

(** A scalar predicate [name] holding one value for uid 1. *)
Definition namePredicate : SubGraph :=
  mkSubGraph "name" zeroParams [1] [] (Some [[]])
    [[pb.mkTaskValue (B "Alice") 0]] [] [] [] [] None false None [].

(** A root block [q] under IgnoreReflex, matching uid 1. *)
Definition reflexRoot (children : list SubGraph) : SubGraph :=
  mkSubGraph "me" (withIgnoreReflex (withAlias "q" zeroParams)) [] [1]
    (Some [[1]]) [] [] [] [] [] None false None children.

(** A predicate whose facets matrix has two rows for a uid matrix of
    one. *)
Definition mismatched : SubGraph :=
  mkSubGraph "friend" zeroParams [1] [] (Some [[2]]) [] [[]; []] [] [] []
    None false None [].

(** A root block [q] whose only uid, 7, is not among the destination
    uids. *)
Definition filteredRoot : SubGraph :=
  mkSubGraph "me" (withAlias "q" zeroParams) [] [] (Some [[7]]) [] [] [] []
    [] None false None [].

(** The same block asking for the count of its uids. *)
Definition countedRoot : SubGraph :=
  mkSubGraph "me" (withUidCount (withAlias "q" zeroParams)) [] []
    (Some [[7]]) [] [] [] [] [] None false None [].

(** A block asking for the count of its uids, with a nil uid matrix. *)
Definition countedNilRoot : SubGraph :=
  mkSubGraph "me" (withUidCount (withAlias "q" zeroParams)) [] []
    None [] [] [] [] [] None false None [].

(** A block whose uid matrix is not nil and has no row. *)
Definition rowlessRoot : SubGraph :=
  mkSubGraph "me" (withAlias "q" zeroParams) [] [] (Some []) [] [] [] []
    [] None false None [].

(** A root node that holds the result of an earlier block named [a]. *)
Definition earlierBlock (a : string) : fastJsonNode :=
  AddListChild a (object a false [scalar "x" "1" 0]) (New "_root_").

(** Under IgnoreReflex: the predicate [name] with one value for each of
    the uids [src]. *)
Definition reflexName (src : list Z) (vs : list string) : SubGraph :=
  mkSubGraph "name" (withIgnoreReflex zeroParams) src []
    (Some (map (fun _ => []) src))
    (map (fun v => [pb.mkTaskValue (B v) 0]) vs) [] [] [] [] None false None
    [].

(** Under IgnoreReflex: the predicate [friend] leading from the uid [src]
    to the uids [dsts]. *)
Definition reflexFriend (src : Z) (dsts : list Z) (children : list SubGraph)
  : SubGraph :=
  mkSubGraph "friend" (withIgnoreReflex zeroParams) [src] dsts (Some [dsts])
    [] [] [] [] [] None false None children.

(** Uid 1 has the friend 2, whose friend is 1 again; every level asks for
    the name. *)
Definition cycle : SubGraph :=
  reflexRoot
    [reflexName [1] ["Alice"];
     reflexFriend 1 [2]
       [reflexName [2] ["Bob"];
        reflexFriend 2 [1] [reflexName [1] ["Alice"]]]].

(** What the traversal of [cycle] for uid 1 builds: the friend of the
    friend is left out. *)
Definition cycleNode : fastJsonNode :=
  object "q" false
    [mkNode "name" 0 false (Q "'Alice'") [] false;
     object "friend" false [mkNode "name" 0 false (Q "'Bob'") [] false]].

(** The stacks the traversal of [cycle] for uid 1 leaves. *)
Definition cycleStacks : Stacks :=
  mkStacks []
    [emptyStacks; mkStacks [1] [emptyStacks; mkStacks [1; 2] []]].

(** The predicate [name] for the uids 2 and 3, with a facet on the value
    of uid 2. *)
Definition facetedName : SubGraph :=
  mkSubGraph "name" (withIgnoreReflex zeroParams) [2; 3] [] (Some [[]; []])
    [[pb.mkTaskValue (B "Bob") 0]; [pb.mkTaskValue (B "Carol") 0]]
    [[[api.mkFacet "since" (B "2000") 0 ""]]; [[]]] [] [] [] None false None
    [].

(** Uid 1 has the friends 2 and 3. *)
Definition twoFriendsOfOne : SubGraph :=
  reflexRoot [reflexFriend 1 [2; 3] [facetedName]].

(** A node with two scalar fields around two structural children of one
    name. *)
Definition twoFriends : fastJsonNode :=
  object "me" false
    [scalar "name" "A" 0;
     object "friend" true [scalar "n" "B" 0];
     object "friend" true [scalar "n" "C" 0];
     scalar "uid" "1" 0].

(** A node with a child named f attached. *)
Definition withChildF : fastJsonNode :=
  object "me" false
    [scalar "name" "A" 0; object "f" false [scalar "x" "1" 0]].

(** A root block [q] matching uid 1, without IgnoreReflex. *)
Definition plainRoot (children : list SubGraph) : SubGraph :=
  mkSubGraph "me" (withAlias "q" zeroParams) [] [1] (Some [[1]]) [] [] [] []
    [] None false None children.

(** The same block with GetUid. *)
Definition getUidRoot (children : list SubGraph) : SubGraph :=
  mkSubGraph "me" (set_GetUid true (withAlias "q" zeroParams)) [] [1]
    (Some [[1]]) [] [] [] [] [] None false None children.

(** A predicate whose result is to be ignored. *)
Definition ignored : SubGraph :=
  mkSubGraph "friend"
    (params.mk "" false false false "" false false false ∅ [] "" false true ""
       None [] false false)
    [1] [] (Some [[2]]) [] [] [] [] [] None false None [].

(** A block that only binds a variable. *)
Definition varBlock : SubGraph :=
  mkSubGraph "me" (withAlias "var" zeroParams) [] [1] (Some [[1]]) [] [] []
    [] [] None false None [].

(** A group-by result of one group with one key. *)
Definition oneGroup : groupResults :=
  mkGroupResults
    [mkGroupResult
       [mkGroupPair (types.mkVal types.IntID (types.VInt64 3)) "age"] []].

(** * Lemmas *)

(** ** Lengths and sums *)

Lemma prefixSums_app acc l1 l2 :
  prefixSums acc (l1 ++ l2) = prefixSums acc l1 ++ prefixSums (acc + sumZ l1) l2.
Proof.
  revert acc. induction l1 as [|x l1 IH]; intros acc; simpl.
  - f_equal. lia.
  - rewrite IH. do 3 f_equal. lia.
Qed.

Lemma len_app {A} (l1 l2 : list A) : len (l1 ++ l2) = len l1 + len l2.
Proof. unfold len. rewrite length_app. lia. Qed.

Lemma len_nonneg {A} (l : list A) : 0 <= len l.
Proof. unfold len. lia. Qed.

(** ** The order of [Less] *)

Lemma string_compare_refl s : String.compare s s = Eq.
Proof.
  pose proof (String.compare_antisym s s) as H.
  destruct (String.compare s s); simpl in H; congruence.
Qed.

Lemma ascii_compare_refl c : Ascii.compare c c = Eq.
Proof. unfold Ascii.compare. apply N.compare_refl. Qed.

Lemma string_compare_trans c s1 s2 s3 :
  String.compare s1 s2 = c -> String.compare s2 s3 = c -> String.compare s1 s3 = c.
Proof.
  revert s2 s3. induction s1 as [|a1 s1 IH]; intros [|a2 s2] [|a3 s3]; simpl;
    try congruence.
  unfold Ascii.compare.
  destruct (N.compare_spec (N_of_ascii a1) (N_of_ascii a2)) as [E12|L12|G12];
  destruct (N.compare_spec (N_of_ascii a2) (N_of_ascii a3)) as [E23|L23|G23];
  intros H1 H2; try congruence.
  - rewrite E12, E23, N.compare_refl. eauto.
  - rewrite E12. apply N.compare_lt_iff in L23. rewrite L23. congruence.
  - rewrite E12. apply N.compare_gt_iff in G23. rewrite G23. congruence.
  - rewrite <- E23. apply N.compare_lt_iff in L12. rewrite L12. congruence.
  - assert (N_of_ascii a1 < N_of_ascii a3)%N as L by lia.
    apply N.compare_lt_iff in L. rewrite L. congruence.
  - rewrite <- E23. apply N.compare_gt_iff in G12. rewrite G12. congruence.
  - assert (N_of_ascii a3 < N_of_ascii a1)%N as L by lia.
    apply N.compare_gt_iff in L. rewrite L. congruence.
Qed.

Lemma notAfter_total : Total notAfter.
Proof.
  intros a b. unfold notAfter, Less.
  rewrite (String.compare_antisym (attr a) (attr b)).
  destruct (String.compare (attr b) (attr a)); simpl; auto.
  rewrite !Z.ltb_ge. lia.
Qed.

Lemma notAfter_trans : Transitive notAfter.
Proof.
  intros a b c. unfold notAfter, Less.
  destruct (String.compare (attr b) (attr a)) eqn:Hba;
  destruct (String.compare (attr c) (attr b)) eqn:Hcb; try discriminate.
  - rewrite (string_compare_trans Eq _ _ _ Hcb Hba). rewrite !Z.ltb_ge. lia.
  - apply String.compare_eq_iff in Hba. rewrite <- Hba, Hcb. auto.
  - apply String.compare_eq_iff in Hcb. rewrite Hcb, Hba. auto.
  - rewrite (string_compare_trans Gt _ _ _ Hcb Hba). auto.
Qed.

Lemma Less_false_attr a b :
  Less b a = false -> String.compare (attr b) (attr a) <> Lt.
Proof. unfold Less. destruct (String.compare (attr b) (attr a)); congruence. Qed.

(** ** Dropping uid fields from a row *)

Lemma uidRange_app l1 l2 i f la :
  uidRange (l1 ++ l2) i f la =
  let '(f', la') := uidRange l1 i f la in uidRange l2 (i + len l1) f' la'.
Proof.
  revert i f la. induction l1 as [|x l1 IH]; intros i f la; simpl.
  - f_equal. unfold len. simpl. lia.
  - replace (i + len (x :: l1)) with (i + 1 + len l1) by (unfold len; simpl; lia).
    destruct (attr x =? "uid")%string; apply IH.
Qed.

Lemma uidRange_none l i f la :
  List.Forall (fun x => isUid x = false) l -> uidRange l i f la = (f, la).
Proof.
  intros H. revert i. induction H as [|x l Hx Hl IH]; intros i; simpl; [reflexivity|].
  unfold isUid in Hx. rewrite Hx. apply IH.
Qed.

Lemma uidRange_first l i f la :
  f <> -1 -> (uidRange l i f la).1 = f.
Proof.
  intros Hf. revert i la. induction l as [|x l IH]; intros i la; simpl; [reflexivity|].
  destruct (attr x =? "uid")%string; [|apply IH].
  replace (f =? -1) with false by (symmetry; apply Z.eqb_neq; exact Hf). apply IH.
Qed.

Lemma dropUids_none s :
  List.Forall (fun x => isUid x = false) s -> dropUids s = s.
Proof.
  intros H. unfold dropUids. rewrite (uidRange_none _ _ _ _ H). reflexivity.
Qed.

Lemma dropUids_one pre u post :
  List.Forall (fun x => isUid x = false) pre -> isUid u = true ->
  List.Forall (fun x => isUid x = false) post ->
  dropUids (pre ++ u :: post) = pre ++ u :: post.
Proof.
  intros Hpre Hu Hpost. unfold dropUids.
  rewrite uidRange_app, (uidRange_none _ _ _ _ Hpre). simpl.
  unfold isUid in Hu. rewrite Hu. simpl.
  rewrite (uidRange_none _ _ _ _ Hpost).
  rewrite Z.eqb_refl, andb_false_r. reflexivity.
Qed.

Lemma dropUids_many pre u1 mid u2 post :
  List.Forall (fun x => isUid x = false) pre -> isUid u1 = true ->
  isUid u2 = true -> List.Forall (fun x => isUid x = false) post ->
  dropUids (pre ++ u1 :: mid ++ u2 :: post) = pre ++ u2 :: post.
Proof.
  intros Hpre Hu1 Hu2 Hpost. unfold dropUids.
  rewrite uidRange_app, (uidRange_none _ _ _ _ Hpre). cbn [uidRange].
  unfold isUid in Hu1, Hu2. rewrite Hu1. simpl (-1 =? -1).
  cbv iota. rewrite uidRange_app.
  pose proof (len_nonneg pre) as Hp. pose proof (len_nonneg mid) as Hm.
  pose proof (uidRange_first mid (0 + len pre + 1) (0 + len pre) (0 + len pre)
                ltac:(lia)) as Hf.
  destruct (uidRange mid _ _ _) as [f la]. simpl in Hf. subst f.
  cbn [uidRange]. rewrite Hu2.
  replace (0 + len pre =? -1) with false by (symmetry; apply Z.eqb_neq; lia).
  rewrite (uidRange_none _ _ _ _ Hpost).
  replace (0 + len pre =? 0 + len pre + 1 + len mid) with false
    by (symmetry; apply Z.eqb_neq; lia).
  simpl negb. simpl andb.
  assert (Hdrop : drop (Z.to_nat (0 + len pre + 1 + len mid))
                    (pre ++ u1 :: mid ++ u2 :: post) = u2 :: post).
  { replace (Z.to_nat (0 + len pre + 1 + len mid))
      with (length pre + (1 + (length mid + 0)))%nat by (unfold len; lia).
    rewrite drop_app_add. simpl. rewrite drop_app_add. reflexivity. }
  rewrite Hdrop.
  destruct (Z.eqb_spec (0 + len pre) 0) as [E|E].
  - replace (0 + len pre =? -1) with false by (symmetry; apply Z.eqb_neq; lia).
    destruct pre; [reflexivity | unfold len in E; simpl in E; lia].
  - replace (0 + len pre =? -1) with false by (symmetry; apply Z.eqb_neq; lia).
    replace (Z.to_nat (0 + len pre)) with (length pre + 0)%nat by (unfold len; lia).
    rewrite take_app_add. simpl. rewrite app_nil_r. reflexivity.
Qed.

(** every row is uid-free, or has a first uid field, and then a last one *)
Lemma split_first_uid l :
  List.Forall (fun x => isUid x = false) l \/
  exists pre u rest, l = pre ++ u :: rest /\
    List.Forall (fun x => isUid x = false) pre /\ isUid u = true.
Proof.
  induction l as [|x l IH].
  - left. constructor.
  - destruct (isUid x) eqn:Hx.
    + right. exists [], x, l. repeat split; auto.
    + destruct IH as [IH|(pre & u & rest & -> & Hpre & Hu)].
      * left. constructor; auto.
      * right. exists (x :: pre), u, rest. repeat split; auto.
Qed.

Lemma split_last_uid l :
  List.Forall (fun x => isUid x = false) l \/
  exists pre u post, l = pre ++ u :: post /\ isUid u = true /\
    List.Forall (fun x => isUid x = false) post.
Proof.
  induction l as [|x l IH].
  - left. constructor.
  - destruct IH as [IH|(pre & u & post & -> & Hu & Hpost)].
    + destruct (isUid x) eqn:Hx.
      * right. exists [], x, l. repeat split; auto.
      * left. constructor; auto.
    + right. exists (x :: pre), u, post. repeat split; auto.
Qed.

Lemma filter_none (f : fastJsonNode -> bool) l :
  List.Forall (fun x => f x = false) l -> List.filter f l = [].
Proof.
  induction 1 as [|x l Hx _ IH]; simpl; [reflexivity|]. rewrite Hx. exact IH.
Qed.

Lemma filter_all (f : fastJsonNode -> bool) l :
  List.Forall (fun x => f x = true) l -> List.filter f l = l.
Proof.
  induction 1 as [|x l Hx _ IH]; simpl; [reflexivity|]. rewrite Hx, IH. reflexivity.
Qed.

Lemma lastUid_app_uid pre u post :
  isUid u = true -> List.Forall (fun x => isUid x = false) post ->
  lastUid (pre ++ u :: post) = Some u.
Proof.
  intros Hu Hpost. unfold lastUid. rewrite List.filter_app. simpl. rewrite Hu.
  rewrite (filter_none _ _ Hpost). apply last_snoc.
Qed.

(** whatever the row, at most one uid field is left, and it is the one in
    the last position *)
Lemma dropUids_keeps_last s :
  List.filter isUid (dropUids s) = option_list (lastUid s).
Proof.
  destruct (split_first_uid s) as [Hnone|(pre & u1 & rest & -> & Hpre & Hu1)].
  - rewrite (dropUids_none _ Hnone). unfold lastUid.
    rewrite (filter_none _ _ Hnone). reflexivity.
  - destruct (split_last_uid rest) as [Hnone|(mid & u2 & post & -> & Hu2 & Hpost)].
    + rewrite (dropUids_one _ _ _ Hpre Hu1 Hnone).
      rewrite (lastUid_app_uid _ _ _ Hu1 Hnone).
      rewrite List.filter_app. simpl. rewrite Hu1.
      rewrite (filter_none _ _ Hpre), (filter_none _ _ Hnone). reflexivity.
    + rewrite (dropUids_many _ _ _ _ _ Hpre Hu1 Hu2 Hpost).
      replace (pre ++ u1 :: mid ++ u2 :: post) with ((pre ++ u1 :: mid) ++ u2 :: post)
        by (rewrite <- app_assoc; reflexivity).
      rewrite (lastUid_app_uid _ _ _ Hu2 Hpost).
      rewrite List.filter_app. simpl. rewrite Hu2.
      rewrite (filter_none _ _ Hpre), (filter_none _ _ Hpost). reflexivity.
Qed.

(** in an ascending row the fields between two uid fields are uid fields *)
Lemma ascending_between pre u1 mid u2 post :
  ascending (pre ++ u1 :: mid ++ u2 :: post) ->
  isUid u1 = true -> isUid u2 = true ->
  List.Forall (fun x => isUid x = true) mid.
Proof.
  unfold ascending. intros Hs Hu1 Hu2.
  apply StronglySorted_app_1_r in Hs.
  apply StronglySorted_inv in Hs as [Hs Hhd].
  rewrite List.Forall_forall in Hhd.
  apply List.Forall_forall. intros x Hx.
  assert (H1 : Less x u1 = false) by (apply Hhd, in_or_app; auto).
  assert (H2 : Less u2 x = false).
  { apply (StronglySorted_app_1_elem_of _ _ _ x u2 Hs).
    - apply list_elem_of_In. exact Hx.
    - apply list_elem_of_In. left. reflexivity. }
  apply Less_false_attr in H1, H2.
  unfold isUid in *. apply String.eqb_eq in Hu1, Hu2. rewrite Hu1 in H1. rewrite Hu2 in H2.
  rewrite String.compare_antisym in H2.
  destruct (String.compare (attr x) "uid") eqn:E; simpl in *; try congruence.
  apply String.compare_eq_iff in E. rewrite E. reflexivity.
Qed.

(** in an ascending row only uid fields are dropped *)
Lemma dropUids_keeps_others s :
  ascending s ->
  List.filter notUid (dropUids s) = List.filter notUid s.
Proof.
  intros Hs.
  destruct (split_first_uid s) as [Hnone|(pre & u1 & rest & -> & Hpre & Hu1)].
  - rewrite (dropUids_none _ Hnone). reflexivity.
  - destruct (split_last_uid rest) as [Hnone|(mid & u2 & post & -> & Hu2 & Hpost)].
    + rewrite (dropUids_one _ _ _ Hpre Hu1 Hnone). reflexivity.
    + rewrite (dropUids_many _ _ _ _ _ Hpre Hu1 Hu2 Hpost).
      pose proof (ascending_between _ _ _ _ _ Hs Hu1 Hu2) as Hmid.
      assert (N1 : notUid u1 = false) by (unfold notUid; rewrite Hu1; reflexivity).
      assert (N2 : notUid u2 = false) by (unfold notUid; rewrite Hu2; reflexivity).
      rewrite !List.filter_app. cbn [List.filter]. rewrite List.filter_app.
      cbn [List.filter]. rewrite N1, N2.
      rewrite (filter_none notUid mid); [reflexivity|].
      eapply List.Forall_impl; [|exact Hmid]. intros x Hx. unfold notUid. rewrite Hx. reflexivity.
Qed.

(** ** The encoder *)

Lemma encode_unfold fj :
  encode fj =
  match attrs fj with
  | [] => (fj, scalarVal fj)
  | _ :: _ =>
      let '(l', out) := encodeLoop encode (attrs fj) 1 false in
      (set_attrs (setOrders l') fj, B "{" ++ out ++ B "}")
  end.
Proof. destruct fj; reflexivity. Qed.

Lemma eraseOrder_unfold fj :
  eraseOrder fj =
  mkNode (attr fj) 0 (isChild fj) (scalarVal fj) (map eraseOrder (attrs fj)) (list_ fj).
Proof. destruct fj; reflexivity. Qed.

Lemma encodeLoop_cons enc cur rest cnt inArray :
  encodeLoop enc (cur :: rest) cnt inArray =
  let '(cur', body) := enc cur in
  let arr := isChild cur || list_ cur in
  match rest with
  | next :: _ =>
      if (attr cur =? attr next)%string then
        let opening := if cnt =? 1 then writeKey cur ++ B "[" else [] in
        let inArray1 := if cnt =? 1 then true else inArray in
        let '(rest', out) := encodeLoop enc rest (cnt + 1) inArray1 in
        (cur' :: rest', opening ++ body ++ B "," ++ out)
      else
        let opening :=
          if cnt =? 1
          then writeKey cur ++ (if arr then B "[" else [])
          else [] in
        let inArray1 := if (cnt =? 1) && arr then true else inArray in
        let closing := if negb (cnt =? 1) || arr then B "]" else [] in
        let inArray2 :=
          if negb (cnt =? 1) || arr then false else inArray1 in
        let '(rest', out) := encodeLoop enc rest 1 inArray2 in
        (cur' :: rest', opening ++ body ++ closing ++ B "," ++ out)
  | [] =>
      let key := if cnt =? 1 then writeKey cur else [] in
      let opening := if arr && negb inArray then B "[" else [] in
      let closing := if negb (cnt =? 1) || arr then B "]" else [] in
      ([cur'], key ++ opening ++ body ++ closing)
  end.
Proof. destruct rest; reflexivity. Qed.

(** the nodes the loop hands back are the visited ones, each as its own
    encode leaves it *)
Lemma encodeLoop_nodes enc l cnt inArray :
  (encodeLoop enc l cnt inArray).1 = map (fun x => (enc x).1) l.
Proof.
  revert cnt inArray. induction l as [|cur rest IH]; intros cnt inArray.
  - reflexivity.
  - rewrite encodeLoop_cons. destruct (enc cur) as [cur' body] eqn:Ecur. simpl.
    destruct rest as [|next rest'].
    + simpl. rewrite Ecur. reflexivity.
    + destruct (attr cur =? attr next)%string.
      * specialize (IH (cnt + 1) (if cnt =? 1 then true else inArray)).
        destruct (encodeLoop enc (next :: rest') _ _) as [r o]. simpl in *.
        rewrite Ecur. simpl. f_equal. exact IH.
      * match goal with |- context [encodeLoop enc _ 1 ?ia] => specialize (IH 1 ia) end.
        destruct (encodeLoop enc (next :: rest') _ _) as [r o]. simpl in *.
        rewrite Ecur. simpl. f_equal. exact IH.
Qed.

(** the bytes the loop writes depend on the nodes only through their
    names, flags and own bytes *)
Lemma encodeLoop_bytes_ext enc1 enc2 (f : fastJsonNode -> fastJsonNode) l cnt inArray :
  (forall x, attr (f x) = attr x /\ isChild (f x) = isChild x /\ list_ (f x) = list_ x) ->
  List.Forall (fun x => (enc1 x).2 = (enc2 (f x)).2) l ->
  (encodeLoop enc1 l cnt inArray).2 = (encodeLoop enc2 (map f l) cnt inArray).2.
Proof.
  intros Hf Hall. revert cnt inArray.
  induction Hall as [|cur rest Hcur Hrest IH]; intros cnt inArray.
  - reflexivity.
  - simpl map. rewrite !encodeLoop_cons.
    destruct (Hf cur) as (Ha & Hc & Hl).
    destruct (enc1 cur) as [c1 b1] eqn:E1. destruct (enc2 (f cur)) as [c2 b2] eqn:E2.
    simpl in Hcur. subst b2. unfold writeKey. rewrite Ha, Hc, Hl.
    destruct rest as [|next rest']; [reflexivity|].
    simpl map. destruct (Hf next) as (Ha' & _). rewrite Ha'.
    destruct (attr cur =? attr next)%string.
    + specialize (IH (cnt + 1) (if cnt =? 1 then true else inArray)).
      simpl map in IH.
      destruct (encodeLoop enc1 (next :: rest') _ _) as [r1 o1].
      destruct (encodeLoop enc2 (f next :: map f rest') _ _) as [r2 o2].
      simpl in *. subst. reflexivity.
    + match goal with |- context [encodeLoop enc1 _ 1 ?ia] => specialize (IH 1 ia) end.
      simpl map in IH.
      destruct (encodeLoop enc1 (next :: rest') _ _) as [r1 o1].
      destruct (encodeLoop enc2 (f next :: map f rest') _ _) as [r2 o2].
      simpl in *. subst. reflexivity.
Qed.

Lemma eraseOrder_fields x :
  attr (eraseOrder x) = attr x /\ isChild (eraseOrder x) = isChild x
  /\ list_ (eraseOrder x) = list_ x.
Proof. destruct x; simpl; auto. Qed.

Lemma encode_bytes_eraseOrder fj : (encode fj).2 = (encode (eraseOrder fj)).2.
Proof.
  induction fj as [a o c v l b IH] using fastJsonNode_tree_ind.
  rewrite eraseOrder_unfold. rewrite !encode_unfold. simpl attrs. simpl scalarVal.
  destruct l as [|x l']; [reflexivity|].
  simpl map.
  pose proof (encodeLoop_bytes_ext encode encode eraseOrder (x :: l') 1 false
                eraseOrder_fields IH) as H.
  simpl map in H.
  destruct (encodeLoop encode (x :: l') 1 false) as [r1 o1].
  destruct (encodeLoop encode (eraseOrder x :: map eraseOrder l') 1 false) as [r2 o2].
  simpl in *. subst. reflexivity.
Qed.

Lemma eraseOrder_set_order o x : eraseOrder (set_order o x) = eraseOrder x.
Proof. destruct x; reflexivity. Qed.

Lemma eraseOrder_setOrders l : map eraseOrder (setOrders l) = map eraseOrder l.
Proof.
  unfold setOrders. generalize (fun i : nat => Z.of_nat i) as g.
  assert (H : forall (g : nat -> Z) , map eraseOrder (imap (fun i a => set_order (g i) a) l) = map eraseOrder l).
  { induction l as [|x l IH]; intros g; [reflexivity|].
    cbn [imap map]. rewrite eraseOrder_set_order. f_equal.
    apply (IH (fun i => g (S i))). }
  intros g. apply H.
Qed.

Lemma encode_state_eraseOrder fj : eraseOrder (encode fj).1 = eraseOrder fj.
Proof.
  induction fj as [a o c v l b IH] using fastJsonNode_tree_ind.
  rewrite encode_unfold. simpl attrs. simpl scalarVal.
  destruct l as [|x l']; [reflexivity|].
  pose proof (encodeLoop_nodes encode (x :: l') 1 false) as Hn.
  destruct (encodeLoop encode (x :: l') 1 false) as [r1 o1]. simpl in Hn. subst r1.
  simpl fst. rewrite !eraseOrder_unfold. simpl.
  f_equal.
  change (map eraseOrder (setOrders ((encode x).1 :: map (fun x => (encode x).1) l'))
          = map eraseOrder (x :: l')).
  rewrite eraseOrder_setOrders. simpl.
  inversion IH as [|? ? Hx Hl]; subst. f_equal; [exact Hx|].
  clear -Hl. induction Hl; simpl; [reflexivity|]. f_equal; auto.
Qed.

Lemma encodeLoop_first_byte enc cur rest inArray :
  exists tail, (encodeLoop enc (cur :: rest) 1 inArray).2 = dq ++ tail.
Proof.
  simpl. destruct (enc cur) as [c b].
  destruct rest as [|next rest'].
  - simpl. eexists. reflexivity.
  - destruct (attr cur =? attr next)%string.
    + destruct (encodeLoop enc (next :: rest') _ _). simpl. eexists. reflexivity.
    + destruct (encodeLoop enc (next :: rest') _ _). simpl. eexists. reflexivity.
Qed.

Lemma rootBytes_bare n : rootBytes n = B "{}" -> attrs n = [].
Proof.
  unfold rootBytes. destruct n as [a o c v l b]. simpl attrs.
  destruct l as [|cur rest]; [reflexivity|].
  replace (len (cur :: rest) =? 0) with false
    by (symmetry; apply Z.eqb_neq; unfold len; simpl; lia).
  cbn [encode attrs].
  destruct (encodeLoop_first_byte encode cur rest false) as [tail Ht].
  destruct (encodeLoop encode (cur :: rest) 1 false) as [r out]. simpl in Ht. subst out.
  simpl. discriminate.
Qed.


(** ** The runs of equal names the encoder writes *)

Lemma groupAdjacent_cons l :
  l <> [] ->
  exists n g gs, groupAdjacent l = (n :: g) :: gs /\ hd_error l = Some n.
Proof.
  destruct l as [|x l]; [congruence|]. intros _. revert x.
  induction l as [|y l IH]; intros x.
  - exists x, [], []. split; reflexivity.
  - destruct (IH y) as (n & g & gs & E & Hn). simpl in Hn. inversion Hn; subst n.
    change (groupAdjacent (x :: y :: l)) with (groupStep x (groupAdjacent (y :: l))).
    rewrite E. unfold groupStep.
    destruct (attr x =? attr y)%string; eexists _, _, _; split; reflexivity.
Qed.

Lemma joinWith_cons2 sep x y l :
  joinWith sep (x :: y :: l) = x ++ sep ++ joinWith sep (y :: l).
Proof. reflexivity. Qed.

Section loop.
Variable enc : fastJsonNode -> fastJsonNode * bytes.
Let body (x : fastJsonNode) : bytes := (enc x).2.

(** the bytes still to come for a run whose first [cnt - 1] members are
    written, followed by the later runs *)
Definition restOfRun (gs : list (list fastJsonNode)) : bytes :=
  match gs with
  | [] => []
  | g :: gs' =>
      joinWith (B ",") (map body g) ++ B "]"
        ++ match gs' with
           | [] => []
           | _ :: _ => B "," ++ joinWith (B ",") (map (renderGroup body) gs')
           end
  end.

Lemma encodeLoop_groups cur rest cnt :
  1 <= cnt ->
  (encodeLoop enc (cur :: rest) cnt (negb (cnt =? 1))).2
  = if cnt =? 1 then renderFields body (cur :: rest)
    else restOfRun (groupAdjacent (cur :: rest)).
Proof.
  revert cur cnt. induction rest as [|next rest' IH]; intros cur cnt Hcnt.
  - simpl. fold (body cur). destruct (enc cur) as [c' b'] eqn:E.
    assert (Hb : body cur = b') by (unfold body; rewrite E; reflexivity).
    unfold renderFields. simpl. unfold arrayed.
    destruct (cnt =? 1); simpl.
    + rewrite Hb. destruct (isChild cur || list_ cur); simpl;
        rewrite ?app_nil_r; reflexivity.
    + rewrite Hb, andb_false_r. reflexivity.
  - rewrite encodeLoop_cons.
    destruct (enc cur) as [c' b'] eqn:E.
    assert (Hb : body cur = b') by (unfold body; rewrite E; reflexivity).
    destruct (groupAdjacent_cons (next :: rest') ltac:(discriminate))
      as (n & g & gs & EG & Hn).
    simpl in Hn. inversion Hn; subst n.
    change (groupAdjacent (cur :: next :: rest'))
      with (groupStep cur (groupAdjacent (next :: rest'))).
    unfold renderFields.
    change (groupAdjacent (cur :: next :: rest'))
      with (groupStep cur (groupAdjacent (next :: rest'))).
    rewrite EG. unfold groupStep.
    destruct (attr cur =? attr next)%string.
    + (* the run goes on *)
      pose proof (IH next (cnt + 1) ltac:(lia)) as H.
      replace (cnt + 1 =? 1) with false in H by (symmetry; apply Z.eqb_neq; lia).
      cbn [negb] in H. cbv iota in H. rewrite EG in H.
      assert (Hin : (if cnt =? 1 then true else negb (cnt =? 1)) = true)
        by (destruct (cnt =? 1); reflexivity).
      cbv zeta. rewrite Hin.
      destruct (encodeLoop enc (next :: rest') (cnt + 1) true) as [r o].
      cbn [snd] in H. subst o. cbn [snd].
      set (U := joinWith (B ",") (map body (next :: g))).
      set (V := match gs with
                | [] => []
                | _ :: _ => B "," ++ joinWith (B ",") (map (renderGroup body) gs)
                end).
      assert (H1 : restOfRun ((next :: g) :: gs) = U ++ B "]" ++ V) by reflexivity.
      assert (H2 : restOfRun ((cur :: next :: g) :: gs)
                   = (b' ++ B "," ++ U) ++ B "]" ++ V).
      { unfold restOfRun. cbn [map]. rewrite joinWith_cons2, Hb. reflexivity. }
      assert (H3 : joinWith (B ",")
                     (map (renderGroup body) ((cur :: next :: g) :: gs))
                   = (writeKey cur ++ B "[" ++ (b' ++ B "," ++ U) ++ B "]") ++ V).
      { cbn [map renderGroup]. rewrite joinWith_cons2, Hb. fold U.
        unfold V. destruct gs as [|g' gs'].
        - cbn [map joinWith]. rewrite app_nil_r. reflexivity.
        - cbn [map]. rewrite joinWith_cons2. reflexivity. }
      rewrite H1, H2, H3. clearbody U V.
      destruct (cnt =? 1); repeat rewrite <- app_assoc; reflexivity.
    + (* the run ends at [cur] *)
      pose proof (IH next 1 ltac:(lia)) as H.
      change (1 =? 1) with true in H. cbn [negb] in H. cbv iota in H.
      unfold renderFields in H. rewrite EG in H.
      assert (Hin : (if negb (cnt =? 1) || (isChild cur || list_ cur) then false
                     else if (cnt =? 1) && (isChild cur || list_ cur) then true
                          else negb (cnt =? 1)) = false).
      { destruct (cnt =? 1), (isChild cur || list_ cur); reflexivity. }
      cbv zeta. rewrite Hin.
      destruct (encodeLoop enc (next :: rest') 1 false) as [r o].
      cbn [snd] in H. subst o. cbn [snd].
      set (T := joinWith (B ",") (map (renderGroup body) ((next :: g) :: gs))).
      assert (H1 : joinWith (B ",")
                     (map (renderGroup body) ([cur] :: (next :: g) :: gs))
                   = (writeKey cur
                        ++ (if isChild cur || list_ cur
                            then B "[" ++ b' ++ B "]" else b'))
                       ++ B "," ++ T).
      { cbn [map]. rewrite joinWith_cons2. cbn [renderGroup]. unfold arrayed.
        rewrite Hb. reflexivity. }
      assert (H2 : restOfRun ([cur] :: (next :: g) :: gs)
                   = b' ++ B "]" ++ B "," ++ T).
      { unfold restOfRun. cbn [map joinWith]. rewrite Hb. reflexivity. }
      rewrite H1, H2. clearbody T.
      destruct (cnt =? 1); cbn [negb orb].
      * destruct (isChild cur || list_ cur); repeat rewrite <- app_assoc;
          reflexivity.
      * reflexivity.
Qed.
End loop.

Lemma encode_fields (fj : fastJsonNode) :
  attrs fj <> [] ->
  (encode fj).2
  = B "{" ++ renderFields (fun x => (encode x).2) (attrs fj) ++ B "}".
Proof.
  intros Hne. rewrite encode_unfold.
  destruct (attrs fj) as [|cur rest]; [congruence|].
  pose proof (encodeLoop_groups encode cur rest 1 ltac:(lia)) as H.
  change (1 =? 1) with true in H. cbn [negb] in H. cbv iota in H.
  destruct (encodeLoop encode (cur :: rest) 1 false) as [r o].
  cbn [snd] in H. subst o. reflexivity.
Qed.

Lemma groupAdjacent_alone e r :
  hd_error (map attr r) <> Some (attr e) ->
  groupAdjacent (e :: r) = [e] :: groupAdjacent r.
Proof.
  intros Hhd. change (groupAdjacent (e :: r)) with (groupStep e (groupAdjacent r)).
  destruct r as [|y r]; [reflexivity|].
  destruct (groupAdjacent_cons (y :: r) ltac:(discriminate)) as (n & g & gs & E & Hn).
  simpl in Hn. inversion Hn; subst n. rewrite E. simpl. simpl in Hhd.
  replace (attr e =? attr y)%string with false; [reflexivity|].
  symmetry. apply String.eqb_neq. congruence.
Qed.

Lemma groupAdjacent_between l e r :
  last (map attr l) <> Some (attr e) ->
  hd_error (map attr r) <> Some (attr e) ->
  groupAdjacent (l ++ e :: r) = groupAdjacent l ++ [e] :: groupAdjacent r.
Proof.
  intros Hlast Hhd. induction l as [|x l IH]; [apply groupAdjacent_alone, Hhd|].
  change (groupAdjacent ((x :: l) ++ e :: r))
    with (groupStep x (groupAdjacent (l ++ e :: r))).
  change (groupAdjacent (x :: l)) with (groupStep x (groupAdjacent l)).
  destruct l as [|y l].
  - simpl app. rewrite (groupAdjacent_alone e r Hhd). simpl. simpl in Hlast.
    replace (attr x =? attr e)%string with false; [reflexivity|].
    symmetry. apply String.eqb_neq. congruence.
  - rewrite IH by exact Hlast.
    destruct (groupAdjacent_cons (y :: l) ltac:(discriminate))
      as (n & g & gs & E & _).
    rewrite E. simpl. destruct (attr x =? attr n)%string; reflexivity.
Qed.

(** The bytes of a root that has an empty child named [a] among its
    attributes, between attributes of other names. *)
Lemma rootBytes_empty_child a n before later :
  attrs n = before ++ mkNode a 0 true [] [] false :: later ->
  last (map attr before) <> Some a ->
  hd_error (map attr later) <> Some a ->
  rootBytes n
  = B "{"
      ++ joinWith (B ",")
           (fieldsOf (fun x => (encode x).2) before
              ++ (dq ++ B a ++ dq ++ B ":[]")
              :: fieldsOf (fun x => (encode x).2) later)
      ++ B "}".
Proof.
  intros Hattrs Hlast Hhd. unfold rootBytes.
  replace (len (attrs n) =? 0) with false
    by (symmetry; apply Z.eqb_neq; rewrite Hattrs; unfold len;
        rewrite length_app; simpl; lia).
  rewrite encode_fields by (rewrite Hattrs; destruct before; discriminate).
  rewrite Hattrs. unfold renderFields, fieldsOf.
  rewrite (groupAdjacent_between before (mkNode a 0 true [] [] false) later Hlast Hhd).
  rewrite List.map_app. cbn [map].
  replace (renderGroup (fun x => (encode x).2) [mkNode a 0 true [] [] false])
    with (dq ++ B a ++ dq ++ B ":[]"); [reflexivity|].
  unfold renderGroup, arrayed, writeKey. simpl. rewrite <- !app_assoc. reflexivity.
Qed.

(** ** Loops *)

Lemma forRange_error {A S : Type} (body : A -> S -> option (S * error)) l :
  (forall x s s' e, In x l -> body x s = Some (s', Some e) -> e <> "_INV_"%string) ->
  forall s s' e, forRange body l s = Some (s', Some e) -> e <> "_INV_"%string.
Proof.
  induction l as [|x l IH]; intros Hbody s s' e H; simpl in H; [discriminate|].
  destruct (body x s) as [[s1 [e1|]]|] eqn:E; try discriminate.
  - inversion H; subst. eapply Hbody; [left; reflexivity | exact E].
  - eapply IH; [|exact H]. intros y t t' e' Hy. apply Hbody. right. exact Hy.
Qed.

Lemma forRange_agree {A S : Type} (b1 b2 : A -> S -> option (S * error))
    (P : S -> Prop) l :
  (forall x s, In x l -> P s -> b1 x s = b2 x s) ->
  (forall x s s', In x l -> P s -> b2 x s = Some (s', None) -> P s') ->
  forall s, P s -> forRange b1 l s = forRange b2 l s.
Proof.
  induction l as [|x l IH]; intros Hagree Hkeep s Hs; simpl; [reflexivity|].
  rewrite (Hagree x s (or_introl eq_refl) Hs).
  destruct (b2 x s) as [[s1 [e1|]]|] eqn:E; try reflexivity.
  apply IH.
  - intros y t Hy. apply Hagree. right. exact Hy.
  - intros y t t' Hy. apply Hkeep. right. exact Hy.
  - eapply Hkeep; [left; reflexivity | exact Hs | exact E].
Qed.

(** * The claims *)

Section Claims.
Context `{Ext : Externals}.

Lemma normalize_unfold fj :
  normalize fj =
  if len (List.filter isChild (attrs fj)) =? 0 then Ok [attrs fj]
  else
    match mergeGroups normalize (attrs fj) None
            [List.filter (fun a => negb (isChild a)) (attrs fj)] with
    | Err e => Err e
    | Ok parentSlice =>
        Ok (map (fun slice => dropUids (sort_Sort slice)) parentSlice)
    end.
Proof. destruct fj; reflexivity. Qed.

(** C1 (amended): a node without a structural child normalizes to its
    attribute list as it stands; for a node with a structural child every
    returned row is a merged row, sorted, with its uid fields cut down to
    one: at most one field named uid is left, it is the uid field in the
    last position of the sorted row, every other field of the sorted row is
    kept, and the sorted row is a rearrangement of the merged one. *)
Theorem normalize_uid_rows (fj : fastJsonNode) :
  (List.filter isChild (attrs fj) = [] -> normalize fj = Ok [attrs fj]) /\
  (List.filter isChild (attrs fj) <> [] ->
   forall rows, normalize fj = Ok rows ->
   exists merged,
     mergeGroups normalize (attrs fj) None
       [List.filter (fun a => negb (isChild a)) (attrs fj)] = Ok merged /\
     rows = map (fun m => dropUids (sort_Sort m)) merged /\
     List.Forall (fun m =>
         (length (List.filter isUid (dropUids (sort_Sort m))) <= 1)%nat /\
         List.filter isUid (dropUids (sort_Sort m))
         = option_list (lastUid (sort_Sort m)) /\
         List.filter notUid (dropUids (sort_Sort m))
         = List.filter notUid (sort_Sort m) /\
         Permutation (sort_Sort m) m) merged).
Proof.
  split.
  - intros H. rewrite normalize_unfold, H. reflexivity.
  - intros H rows Hrows. rewrite normalize_unfold in Hrows.
    replace (len (List.filter isChild (attrs fj)) =? 0) with false in Hrows
      by (symmetry; apply Z.eqb_neq; destruct (List.filter isChild (attrs fj));
          [congruence | unfold len; simpl; lia]).
    destruct (mergeGroups normalize (attrs fj) None _) as [merged|e];
      [|discriminate].
    exists merged. split; [reflexivity|]. split; [congruence|].
    apply List.Forall_forall. intros m _.
    pose proof (dropUids_keeps_last (sort_Sort m)) as Hlast.
    repeat split.
    + rewrite Hlast. destruct (lastUid (sort_Sort m)); simpl; lia.
    + exact Hlast.
    + apply dropUids_keeps_others, sort_Sort_ascending.
    + apply sort_Sort_perm.
Qed.

Lemma preTraverse_unfold sg st uid dst :
  preTraverse sg st uid dst =
  let p := Params sg in
  if params.IgnoreReflex p && alreadySeen (parentIds st) uid
  then Some (st, dst, None)
  else
    let ids :=
      if params.IgnoreReflex p then parentIds st ++ [uid] else parentIds st in
    '(s, err) ← traverseChildren preTraverse sg ids uid (kids st) dst;
    let '(_, ks, dst, _) := s in
    match err with
    | Some e => Some (mkStacks ids ks, dst, Some e)
    | None =>
        let ids :=
          if params.IgnoreReflex p && (len ids >? 0) then removelast ids
          else ids in
        let dst :=
          if (params.GetUid p && negb (IsEmpty dst)) || params.shortest p
          then SetUID uid "uid" dst else dst in
        dst ←
          match pathMeta sg with
          | Some m =>
              AddValue "_weight_"
                (types.mkVal types.FloatID (types.VFloat64 (weight m))) dst
          | None => Some dst
          end;
        Some (mkStacks ids ks, dst, None)
    end.
Proof. destruct sg; reflexivity. Qed.

Lemma preTraverse_With sg st uid dst :
  preTraverse sg st uid dst = preTraverseWith preTraverse sg st uid dst.
Proof. destruct sg; reflexivity. Qed.

Lemma preTraverseOnPath_unfold expected sg st uid dst :
  preTraverseOnPath expected sg st uid dst =
  if onPath expected st
  then
    preTraverseWith
      (preTraverseOnPath
         (if params.IgnoreReflex (Params sg) then Some (parentIds st ++ [uid])
          else None))
      sg st uid dst
  else Some (st, dst, Some offPath).
Proof. destruct sg; reflexivity. Qed.

(** *** No call returns the pruning error unless another package does *)

Lemma errMismatch_not_INV nf nu : errMismatch nf nu <> "_INV_"%string.
Proof. unfold errMismatch. simpl. discriminate. Qed.

Lemma errGroupby_not_INV idx n : errGroupby idx n <> "_INV_"%string.
Proof. unfold errGroupby. simpl. discriminate. Qed.

Lemma addFacets_not_INV fname fs n n' e :
  neverPrunes -> addFacets fname fs n = Some (n', Some e) -> e <> "_INV_"%string.
Proof.
  intros [Hf _]. unfold addFacets. apply forRange_error.
  intros f s s' e' _ H. destruct (facets_ValFor f) as [v|e1] eqn:E.
  - destruct (AddValue (facetName fname f) v s); simpl in H; discriminate.
  - inversion H; subst. eapply Hf. exact E.
Qed.

Lemma traverseValue_not_INV pc fname idx entry dst dst' e :
  neverPrunes ->
  traverseValue pc fname idx entry dst = Some (dst', Some e) -> e <> "_INV_"%string.
Proof.
  intros [_ Hc]. unfold traverseValue. destruct entry as [i tv].
  destruct (convertWithBestEffort tv (Attr pc)) as [sv|e1] eqn:E.
  - intros H.
    assert (Hplain : forall b a r,
               (x ← AddListValue a sv b dst; Some (x, @None string)) = Some r ->
               r.2 = None).
    { intros b a r Hr. destruct (AddListValue a sv b dst); simpl in Hr; [|discriminate].
      inversion Hr. reflexivity. }
    repeat match type of H with
    | (if ?c then _ else _) = _ => destruct c
    | (match ?c with _ => _ end) = _ => destruct c eqn:?; simpl in H
    | mbind _ ?c = _ => destruct c eqn:?; simpl in H
    end;
    try discriminate;
    try (apply Hplain in H; discriminate);
    try (inversion H; subst; discriminate).
  - intros H. inversion H; subst. eapply Hc. exact E.
Qed.

Lemma traverseValues_not_INV pc uid fname idx dst dst' e :
  neverPrunes ->
  traverseValues pc uid fname idx dst = Some (dst', Some e) -> e <> "_INV_"%string.
Proof.
  intros Hn. unfold traverseValues.
  destruct (Attr pc =? "uid")%string; [discriminate|].
  set (f := if _ : bool then _ else fname). clearbody f.
  destruct (if len (facetsMatrix pc) >? idx then _ else _)
    as [[d [e1|]]|] eqn:E; simpl; try discriminate.
  - intros H. inversion H; subst.
    destruct (len (facetsMatrix pc) >? idx); [|discriminate].
    destruct (index (facetsMatrix pc) idx) as [[|fs fl]|]; simpl in E;
      try discriminate.
    eapply addFacets_not_INV; eauto.
  - destruct (len (valueMatrix pc) <=? idx); [discriminate|].
    destruct (index (valueMatrix pc) idx) as [vals|]; simpl; [|discriminate].
    apply forRange_error. intros x s s' e' _. apply traverseValue_not_INV, Hn.
Qed.

Lemma traverseUid_not_INV rec sg pc fname fcs entry s s' e :
  neverPrunes ->
  traverseUid rec sg pc fname fcs entry s = Some (s', Some e) -> e <> "_INV_"%string.
Proof.
  intros Hn. unfold traverseUid. destruct entry as [childIdx childUID].
  destruct s as [[kst dst] inv].
  destruct ((fname =? "")%string || bool_decide (childUID ∈ inv)); [discriminate|].
  destruct (rec kst childUID (New fname)) as [[[kst' uc] [e1|]]|]; simpl;
    try discriminate.
  - destruct (e1 =? "_INV_")%string eqn:E; [discriminate|].
    intros H. inversion H; subst. apply String.eqb_neq. exact E.
  - destruct (if _ && _ then _ else _) as [[uc' [e1|]]|] eqn:E; simpl;
      try discriminate.
    + intros H. inversion H; subst.
      destruct (_ && _); [|discriminate].
      destruct (index fcs childIdx) as [fs|]; simpl in E; [|discriminate].
      eapply addFacets_not_INV; eauto.
    + destruct (negb (IsEmpty uc')); discriminate.
Qed.

Lemma traverseEdges_not_INV rec sg pc sgIds fname idx ul s s' e :
  neverPrunes ->
  traverseEdges rec sg pc sgIds fname idx ul s = Some (s', Some e) ->
  e <> "_INV_"%string.
Proof.
  intros Hn. unfold traverseEdges.
  destruct (if bool_decide _ then _ else _) as [fcs|]; simpl; [|discriminate].
  destruct s as [[kst dst] inv].
  destruct (forRange _ _ _) as [[s1 [e1|]]|] eqn:E; simpl; try discriminate.
  - intros H. inversion H; subst.
    revert E. apply forRange_error. intros x t t' e' _.
    apply traverseUid_not_INV, Hn.
  - destruct s1 as [[k1 d1] i1]. destruct (_ && _); discriminate.
Qed.

Lemma traverseChild_not_INV rec sg pc sgIds uid s s' e :
  neverPrunes ->
  traverseChild rec sg pc sgIds uid s = Some (s', Some e) -> e <> "_INV_"%string.
Proof.
  intros Hn. unfold traverseChild. destruct s as [[kst dst] inv].
  destruct (params.ignoreResult (Params pc)); [discriminate|].
  destruct (params.isInternal (Params pc)).
  { destruct (negb _); [discriminate|]. destruct (_ && _); [discriminate|].
    unfold addInternalNode.
    destruct (params.uidToVal (Params pc) !! uid) as [sv|]; simpl; [|discriminate].
    destruct (types.Value sv); simpl; try discriminate;
      destruct (AddValue _ sv dst); simpl; discriminate. }
  destruct (len (rowsOf (uidMatrix pc)) =? 0); [discriminate|].
  destruct (_ && _).
  { intros H. inversion H. apply errMismatch_not_INV. }
  destruct (_ <? 0); [discriminate|].
  destruct (params.isGroupBy (Params pc)).
  { destruct (index (GroupbyRes pc) _) as [res|].
    - destruct (addGroupby pc res (fieldName pc) dst); simpl; discriminate.
    - intros H. inversion H. apply errGroupby_not_INV. }
  destruct (len (counts pc) >? 0).
  { destruct (index (counts pc) _ ≫= _); simpl; discriminate. }
  destruct (bool_decide _).
  { destruct (index (valueMatrix pc) _ ≫= _); simpl; discriminate. }
  destruct (_ && _).
  - apply traverseEdges_not_INV, Hn.
  - destruct (traverseValues _ _ _ _ _) as [[d [e1|]]|] eqn:E; simpl;
      try discriminate.
    intros H. inversion H; subst. eapply traverseValues_not_INV; eauto.
Qed.

Lemma traverseChildren_not_INV rec sg ids uid ks dst s' e :
  neverPrunes ->
  traverseChildren rec sg ids uid ks dst = Some (s', Some e) -> e <> "_INV_"%string.
Proof.
  intros Hn. unfold traverseChildren. apply forRange_error.
  intros pc s t e' _. destruct s as [[[k ks0] d] inv].
  destruct (traverseChild _ _ _ _ _ _) as [[[[kst d'] inv'] [e1|]]|] eqn:E;
    simpl; try discriminate.
  intros H. inversion H; subst. eapply traverseChild_not_INV; eauto.
Qed.

Lemma preTraverseWith_not_INV rec sg st uid dst st' dst' e :
  neverPrunes ->
  preTraverseWith rec sg st uid dst = Some (st', dst', Some e) ->
  e <> "_INV_"%string.
Proof.
  intros Hn. unfold preTraverseWith.
  destruct (_ && _); [discriminate|].
  destruct (traverseChildren _ _ _ _ _ _) as [[[[[k ks] d] inv] [e1|]]|] eqn:E;
    simpl; try discriminate.
  - intros H. inversion H; subst. eapply traverseChildren_not_INV; eauto.
  - destruct (match pathMeta sg with Some _ => _ | None => _ end); simpl;
      discriminate.
Qed.

(** *** The loops ask for the calls on a child only at the expected stack *)

Lemma traverseEdges_agree rec1 rec2 sg pc ids fname idx ul s :
  agreeOn (if params.IgnoreReflex (Params sg) then Some ids else None)
    rec1 rec2 ->
  traverseEdges rec1 sg pc ids fname idx ul s
  = traverseEdges rec2 sg pc ids fname idx ul s.
Proof.
  intros (Hagree & Hkeep & Hinv). unfold traverseEdges.
  destruct (if bool_decide _ then _ else _) as [fcs|]; simpl; [|reflexivity].
  destruct s as [[kst dst] inv].
  set (expected := if params.IgnoreReflex (Params sg) then Some ids else None) in *.
  set (kst0 := if params.IgnoreReflex (Params sg) then _ else kst).
  assert (H0 : onPath expected kst0 = true).
  { unfold expected, kst0. destruct (params.IgnoreReflex (Params sg)); simpl;
      [apply bool_decide_eq_true_2|]; reflexivity. }
  clearbody kst0.
  rewrite (forRange_agree (traverseUid rec1 sg pc fname fcs)
             (traverseUid rec2 sg pc fname fcs)
             (fun t : childState => onPath expected t.1.1 = true));
    [reflexivity| | |exact H0].
  - intros [childIdx childUID] [[k d] i] _ Hk. simpl in Hk.
    unfold traverseUid. rewrite (Hagree k childUID (New fname) Hk). reflexivity.
  - intros [childIdx childUID] [[k d] i] t _ Hk. simpl in Hk.
    unfold traverseUid.
    destruct (_ || _); [intros H; injection H as <-; exact Hk|].
    destruct (rec2 k childUID (New fname)) as [[[k' uc] [e1|]]|] eqn:E; simpl;
      try discriminate.
    + apply Hinv in E. apply String.eqb_neq in E. rewrite E. discriminate.
    + apply Hkeep in E.
      assert (Hk' : onPath expected k' = true).
      { destruct expected as [p|]; [|reflexivity]. simpl in *.
        apply bool_decide_eq_true in Hk. apply bool_decide_eq_true_2. congruence. }
      destruct (if _ && _ then _ else _) as [[uc' [e1|]]|]; simpl;
        try discriminate.
      destruct (negb (IsEmpty uc')); intros H; injection H as <-; exact Hk'.
Qed.

Lemma traverseChild_agree rec1 rec2 sg pc ids uid s :
  agreeOn (if params.IgnoreReflex (Params sg) then Some ids else None)
    rec1 rec2 ->
  traverseChild rec1 sg pc ids uid s = traverseChild rec2 sg pc ids uid s.
Proof.
  intros Hag. unfold traverseChild. destruct s as [[kst dst] inv].
  rewrite (traverseEdges_agree rec1 rec2 sg pc ids _ _ _ _ Hag).
  reflexivity.
Qed.

Lemma traverseChildren_agree rec1 rec2 sg ids uid ks dst :
  Forall (fun pc =>
            agreeOn (if params.IgnoreReflex (Params sg) then Some ids else None)
              (rec1 pc) (rec2 pc)) (Children sg) ->
  traverseChildren rec1 sg ids uid ks dst = traverseChildren rec2 sg ids uid ks dst.
Proof.
  intros Hall. unfold traverseChildren.
  apply (forRange_agree _ _ (fun _ => True)); [|trivial|trivial].
  intros pc [[[k ks0] d] inv] Hin _.
  rewrite List.Forall_forall in Hall.
  rewrite (traverseChild_agree (rec1 pc) (rec2 pc) sg pc ids uid _ (Hall pc Hin)).
  reflexivity.
Qed.

(** A call that returns no error leaves the stack as it found it: nothing
    was pushed, or what was pushed has been popped. *)
Lemma preTraverse_restores sg st st' uid dst dst' :
  preTraverse sg st uid dst = Some (st', dst', None) ->
  parentIds st' = parentIds st.
Proof.
  intros H. rewrite preTraverse_With in H. unfold preTraverseWith in H.
  destruct (params.IgnoreReflex (Params sg)); simpl andb in H.
  - destruct (alreadySeen (parentIds st) uid); [inversion H; reflexivity|].
    destruct (traverseChildren preTraverse sg (parentIds st ++ [uid]) uid (kids st) dst)
      as [[[[[k ks] d] inv] [e|]]|]; simpl in H; try discriminate.
    replace (len (parentIds st ++ [uid]) >? 0) with true in H
      by (symmetry; apply Z.gtb_lt; unfold len; rewrite length_app; simpl; lia).
    rewrite removelast_last in H.
    destruct (match pathMeta sg with Some _ => _ | None => _ end); simpl in H;
      [|discriminate].
    inversion H; subst. reflexivity.
  - cbv iota in H.
    destruct (traverseChildren preTraverse sg (parentIds st) uid (kids st) dst)
      as [[[[[k ks] d] inv] [e|]]|]; simpl in H; try discriminate.
    destruct (match pathMeta sg with Some _ => _ | None => _ end); simpl in H;
      [|discriminate].
    inversion H; subst. reflexivity.
Qed.

(** The check of [preTraverseOnPath] never fails: every call made on a
    child of a sub-graph with IgnoreReflex finds the stack of its parent
    with the uid the parent is traversed for pushed on it. *)
Lemma preTraverse_on_path sg :
  neverPrunes ->
  forall expected st uid dst,
    onPath expected st = true ->
    preTraverseOnPath expected sg st uid dst = preTraverse sg st uid dst.
Proof.
  intros Hn. induction sg as [sg IH] using SubGraph_tree_ind.
  intros expected st uid dst Hon.
  rewrite preTraverseOnPath_unfold, Hon.
  rewrite preTraverse_With. unfold preTraverseWith.
  destruct (params.IgnoreReflex (Params sg) && alreadySeen (parentIds st) uid);
    [reflexivity|].
  set (ids := if params.IgnoreReflex (Params sg) then parentIds st ++ [uid]
              else parentIds st).
  set (below := if params.IgnoreReflex (Params sg)
                then Some (parentIds st ++ [uid]) else None).
  assert (Hbelow : below = if params.IgnoreReflex (Params sg) then Some ids else None).
  { unfold below, ids. destruct (params.IgnoreReflex (Params sg)); reflexivity. }
  rewrite (traverseChildren_agree (preTraverseOnPath below)
             preTraverse sg ids uid (kids st) dst); [reflexivity|].
  rewrite <- Hbelow.
  rewrite List.Forall_forall in IH |- *. intros pc Hin.
  split; [|split].
  - intros kst u n Hk. apply IH; assumption.
  - intros kst u n kst' n'. apply preTraverse_restores.
  - intros kst u n kst' n' e H. rewrite preTraverse_With in H.
    eapply preTraverseWith_not_INV; eauto.
Qed.

(** C2 (amended): under IgnoreReflex a call for a uid already on the stack
    changes nothing and returns no error.  Otherwise the uid is pushed
    before the descent: the loop over the children runs with the stack of
    the entry followed by the uid, and its error is the error of the call.
    A call that returns no error has popped the uid, so the stack is what
    it was before the call; a call that returns an error leaves the uid on
    the stack.  As long as no subtree is pruned, every call made on a
    child of a sub-graph with IgnoreReflex, at any depth, finds the stack
    of its parent with the uid of the parent pushed on it, which is the
    open recursion path: the traversal with that check at every call is
    the traversal. *)
Theorem preTraverse_stack (sg : SubGraph) (st st' : Stacks) (uid : Z)
    (dst dst' : fastJsonNode) (err : error) :
  params.IgnoreReflex (Params sg) = true ->
  preTraverse sg st uid dst = Some (st', dst', err) ->
  (alreadySeen (parentIds st) uid = true ->
   st' = st /\ dst' = dst /\ err = None) /\
  (alreadySeen (parentIds st) uid = false ->
   (exists s,
       traverseChildren preTraverse sg (parentIds st ++ [uid]) uid (kids st) dst
       = Some (s, err)) /\
   match err with
   | None => parentIds st' = parentIds st
   | Some _ => parentIds st' = parentIds st ++ [uid]
   end) /\
  (neverPrunes ->
   preTraverseOnPath (Some (parentIds st)) sg st uid dst
   = preTraverse sg st uid dst).
Proof.
  intros Hflag H. split; [|split].
  - intros Hseen. rewrite preTraverse_With in H. unfold preTraverseWith in H.
    rewrite Hflag, Hseen in H. inversion H. auto.
  - intros Hseen. rewrite preTraverse_With in H. unfold preTraverseWith in H.
    rewrite Hflag, Hseen in H. simpl andb in H. cbv iota in H.
    destruct (traverseChildren preTraverse sg (parentIds st ++ [uid]) uid (kids st) dst)
      as [[[[[k ks] d] inv] [e|]]|]; simpl in H; try discriminate.
    + inversion H; subst. split; [eexists; reflexivity | reflexivity].
    + replace (len (parentIds st ++ [uid]) >? 0) with true in H
        by (symmetry; apply Z.gtb_lt; unfold len; rewrite length_app; simpl; lia).
      rewrite removelast_last in H.
      destruct (match pathMeta sg with Some _ => _ | None => _ end); simpl in H;
        [|discriminate].
      inversion H; subst. split; [eexists; reflexivity | reflexivity].
  - intros Hn. apply preTraverse_on_path; [exact Hn|].
    apply bool_decide_eq_true_2. reflexivity.
Qed.

Definition within (cs : list Z) : bool :=
  forallb (fun c => c <=? NormalizeNodeLimit) cs.

Lemma mergeInner_spec pa child cnt acc :
  mergeInner pa child cnt acc =
  if within (prefixSums cnt (map (fun ca => len (pa ++ ca)) child))
  then Ok (cnt + sumZ (map (fun ca => len (pa ++ ca)) child),
           acc ++ map (fun ca => pa ++ ca) child)
  else Err tooManyResults.
Proof.
  revert cnt acc. induction child as [|ca child IH]; intros cnt acc; simpl.
  - rewrite Z.add_0_r, app_nil_r. reflexivity.
  - rewrite len_app.
    destruct (Z.gtb_spec (cnt + (len pa + len ca)) NormalizeNodeLimit) as [Hgt|Hle].
    + replace (cnt + (len pa + len ca) <=? NormalizeNodeLimit) with false
        by (symmetry; apply Z.leb_gt; lia).
      reflexivity.
    + replace (cnt + (len pa + len ca) <=? NormalizeNodeLimit) with true
        by (symmetry; apply Z.leb_le; lia).
      rewrite IH. simpl. rewrite <- app_assoc. simpl.
      replace (cnt + (len pa + len ca) + sumZ (map (λ ca0, len (pa ++ ca0)) child))
        with (cnt + (len pa + len ca + sumZ (map (λ ca0, len (pa ++ ca0)) child))) by lia.
      reflexivity.
Qed.

Lemma within_app l1 l2 : within (l1 ++ l2) = within l1 && within l2.
Proof. apply forallb_app. Qed.

Lemma mergeOuter_spec parent child cnt acc :
  mergeOuter parent child cnt acc =
  if within (prefixSums cnt (map len (crossProduct parent child)))
  then Ok (acc ++ crossProduct parent child)
  else Err tooManyResults.
Proof.
  revert cnt acc. induction parent as [|pa parent IH]; intros cnt acc; simpl.
  - rewrite app_nil_r. reflexivity.
  - rewrite mergeInner_spec. unfold crossProduct. simpl.
    rewrite map_app, prefixSums_app, within_app, map_map.
    destruct (within (prefixSums cnt (map (λ ca, len (pa ++ ca)) child))); simpl;
      [|reflexivity].
    rewrite IH. unfold crossProduct. rewrite <- app_assoc. reflexivity.
Qed.

Lemma crossProduct_length parent child :
  length (crossProduct parent child) = (length parent * length child)%nat.
Proof.
  unfold crossProduct. induction parent as [|pa parent IH]; simpl; [reflexivity|].
  rewrite length_app, length_map, IH. reflexivity.
Qed.

Lemma within_Forall cs :
  within cs = true <-> List.Forall (fun c => c <= NormalizeNodeLimit) cs.
Proof.
  unfold within. rewrite forallb_forall, List.Forall_forall.
  split; intros H x Hx; specialize (H x Hx); lia.
Qed.

Lemma within_Exists cs :
  within cs = false <-> List.Exists (fun c => c > NormalizeNodeLimit) cs.
Proof.
  unfold within. induction cs as [|c cs IH]; simpl.
  - split; [discriminate | intros H; inversion H].
  - rewrite List.Exists_cons, andb_false_iff, IH, Z.leb_gt. split; intros [?|?]; auto; left; lia.
Qed.

(** C3 (amended): for a parent set that is not empty, merge returns the
    M x N concatenations of a parent row and a child row when the running
    element count stays within NormalizeNodeLimit, and fails with the
    too-many-results error when the running count exceeds it. *)
Theorem merge_cross_product (parent child : list (list fastJsonNode)) :
  parent <> [] ->
  (List.Forall (fun c => c <= NormalizeNodeLimit) (runningCounts parent child) ->
   merge parent child = Ok (crossProduct parent child)) /\
  length (crossProduct parent child) = (length parent * length child)%nat /\
  (List.Exists (fun c => c > NormalizeNodeLimit) (runningCounts parent child) ->
   merge parent child = Err tooManyResults).
Proof.
  intros Hne. unfold merge.
  replace (len parent =? 0) with false
    by (symmetry; apply Z.eqb_neq; destruct parent; [congruence | unfold len; simpl; lia]).
  rewrite mergeOuter_spec. fold (runningCounts parent child).
  split; [|split].
  - intros H. apply within_Forall in H. rewrite H. reflexivity.
  - apply crossProduct_length.
  - intros H. apply within_Exists in H. rewrite H. reflexivity.
Qed.


(** C4: siblings named a, a, b, a, the last a structural or list-tagged
    and b a plain scalar, are written as one array of the first two a, b
    bare, and the last a as an array of its own. *)
Theorem encode_groups_consecutive (fj a1 a2 b a3 : fastJsonNode) :
  attrs fj = [a1; a2; b; a3] ->
  attr a2 = attr a1 -> attr a3 = attr a1 -> attr b <> attr a1 ->
  isChild a3 || list_ a3 = true ->
  isChild b || list_ b = false ->
  (encode fj).2
  = B "{" ++ writeKey a1 ++ B "[" ++ (encode a1).2 ++ B "," ++ (encode a2).2
      ++ B "]" ++ B "," ++ writeKey b ++ (encode b).2 ++ B ","
      ++ writeKey a3 ++ B "[" ++ (encode a3).2 ++ B "]" ++ B "}".
Proof.
  intros Hattrs H2 H3 Hb Harr3 Harrb.
  rewrite encode_unfold, Hattrs.
  assert (E12 : (attr a1 =? attr a2)%string = true)
    by (apply String.eqb_eq; congruence).
  assert (E2b : (attr a2 =? attr b)%string = false)
    by (apply String.eqb_neq; congruence).
  assert (Eb3 : (attr b =? attr a3)%string = false)
    by (apply String.eqb_neq; congruence).
  destruct (encode a1) as [a1' o1] eqn:R1. destruct (encode a2) as [a2' o2] eqn:R2.
  destruct (encode b) as [b' ob] eqn:Rb. destruct (encode a3) as [a3' o3] eqn:R3.
  rewrite encodeLoop_cons, R1, E12. cbv zeta.
  rewrite encodeLoop_cons, R2, E2b. cbv zeta.
  rewrite encodeLoop_cons, Rb, Eb3, Harrb. cbv zeta.
  rewrite encodeLoop_cons, R3, Harr3. unfold writeKey. simpl.
  repeat (rewrite <- app_assoc; simpl). reflexivity.
Qed.

(** C5 (amended): a node with no attached children is empty, the root
    bytes of such a node are the empty object, and encode writes its scalar
    bytes and nothing else. *)
Theorem empty_node_bytes (fj : fastJsonNode) :
  attrs fj = [] ->
  IsEmpty fj = true /\ rootBytes fj = B "{}" /\ (encode fj).2 = scalarVal fj.
Proof.
  intros H. unfold IsEmpty, rootBytes. rewrite encode_unfold, H. auto.
Qed.

(** C6: with a field named uid attached, SetUID for the name uid changes
    nothing; without one it appends one node after the attached ones and
    changes nothing else: a scalar named uid, not a child, with nothing
    attached, whose value is the uid in hexadecimal between quotes; the
    node then has a field named uid, so a second call changes nothing. *)
Theorem SetUID_uid_once (fj : fastJsonNode) (uid : Z) :
  (hasAttr "uid" fj = true -> SetUID uid "uid" fj = fj) /\
  (hasAttr "uid" fj = false ->
   SetUID uid "uid" fj
   = mkNode (attr fj) (order fj) (isChild fj) (scalarVal fj)
       (attrs fj ++ [mkNode "uid" 0 false (dq ++ B (hex uid) ++ dq) [] false])
       (list_ fj) /\
   length (attrs (SetUID uid "uid" fj)) = S (length (attrs fj)) /\
   hasAttr "uid" (SetUID uid "uid" fj) = true) /\
  (forall uid2, SetUID uid2 "uid" (SetUID uid "uid" fj) = SetUID uid "uid" fj).
Proof.
  assert (Hhas : forall u, hasAttr "uid" (SetUID u "uid" fj) = true).
  { intros u. unfold SetUID. simpl. destruct (hasAttr "uid" fj) eqn:E; [exact E|].
    unfold hasAttr, appendAttr. destruct fj. simpl. rewrite existsb_app. simpl.
    apply orb_true_r. }
  split; [|split].
  - intros H. unfold SetUID. rewrite H. reflexivity.
  - intros H. split; [|split].
    + unfold SetUID. rewrite H. destruct fj. reflexivity.
    + unfold SetUID. rewrite H. destruct fj. simpl. rewrite length_app. simpl. lia.
    + apply Hhas.
  - intros uid2. unfold SetUID at 1. rewrite Hhas. reflexivity.
Qed.

Lemma valToBytes_OtherID code val :
  valToBytes (types.mkVal (types.OtherID code) val)
  = Some (Err "Unsupported types.Val.Tid").
Proof. reflexivity. Qed.

(** C7: a value valToBytes answers with an error for is not added by
    AddListValue or AddValue, which return the node as it was, without a
    panic. *)
Theorem AddListValue_drops_unsupported
    (fj : fastJsonNode) (a : string) (v : types.Val) (l : bool) (msg : string) :
  valToBytes v = Some (Err msg) ->
  AddListValue a v l fj = Some fj /\ AddValue a v fj = Some fj.
Proof.
  intros H. unfold AddValue, AddListValue. rewrite H. simpl. auto.
Qed.

(** C8: encoding the tree the first encode leaves behind writes the same
    bytes.  The bytes do not depend on any [order] field at all
    ([encode_bytes_eraseOrder]), so it makes no difference which write to
    [order] a node shared by several normalized rows keeps. *)
Theorem encode_twice (fj : fastJsonNode) :
  (encode (encode fj).1).2 = (encode fj).2.
Proof.
  rewrite (encode_bytes_eraseOrder (encode fj).1), encode_state_eraseOrder,
    <- encode_bytes_eraseOrder. reflexivity.
Qed.

(** C9: with no parent rows merge returns the child rows as they are, as
    many rows as the child set has, and never the too-many-results error,
    whatever NormalizeNodeLimit is and however many elements the child rows
    hold. *)
Theorem merge_empty_parent (child : list row) :
  merge [] child = Ok child /\
  (forall rows, merge [] child = Ok rows -> length rows = length child) /\
  merge [] child <> Err tooManyResults.
Proof.
  assert (H : merge [] child = Ok child) by reflexivity.
  split; [exact H|]. split.
  - intros rows Hrows. rewrite H in Hrows. inversion Hrows. reflexivity.
  - rewrite H. discriminate.
Qed.

(** With one empty parent row the same child rows do run into the limit. *)
Lemma merge_empty_row_limit (ca : row) :
  len ca > NormalizeNodeLimit -> merge [[]] [ca] = Err tooManyResults.
Proof.
  intros H. unfold merge. simpl.
  replace (0 + (len (@nil fastJsonNode) + len ca) >? NormalizeNodeLimit)
    with true; [reflexivity|].
  symmetry. apply Z.gtb_lt. unfold len in *. simpl. lia.
Qed.


Lemma processUid_skipped sg st uid st1 fj h :
  skipped sg st uid st1 ->
  processUid sg uid (st, fj, h) = Some ((st1, fj, h), None).
Proof.
  intros [[Hlt ->]|(Hge & n1 & err & Hrun & Hres)]; unfold processUid.
  - replace (algo_IndexOf (DestUIDs sg) uid <? 0) with true
      by (symmetry; apply Z.ltb_lt; exact Hlt).
    reflexivity.
  - replace (algo_IndexOf (DestUIDs sg) uid <? 0) with false
      by (symmetry; apply Z.ltb_ge; exact Hge).
    rewrite Hrun. simpl.
    destruct Hres as [->|[-> Hempty]].
    + reflexivity.
    + rewrite Hempty. reflexivity.
Qed.

Lemma forRange_noneAttached sg st uids st' fj h :
  noneAttached sg st uids st' ->
  forRange (processUid sg) uids (st, fj, h) = Some ((st', fj, h), None).
Proof.
  induction 1 as [st|st uid st1 uids st' Hskip _ IH]; cbn [forRange].
  - reflexivity.
  - rewrite (processUid_skipped _ _ _ _ _ _ Hskip). exact IH.
Qed.

(** C10 (amended): for a root block that is not an empty-block
    aggregation, a nil uid matrix leaves an empty child under the alias of
    the block; so does, for a block that is not a group-by and attaches no
    count at the root, a uid matrix with a first row none of whose uids
    yields an attached subtree.  The child is attached after the fields
    the root has; in a root whose fields next to it have other names it is
    written as the alias mapped to an empty array, between the fields
    before it and the fields after it; and the bare empty object is
    written only for a root with no attached field. *)
Theorem processNodeUids_empty_key (sg : SubGraph) (fj : fastJsonNode) (st : Stacks) :
  let p := Params sg in
  let fj' := AddListChild (params.Alias p) zeroNode fj in
  params.IsEmpty p = false ->
  (uidMatrix sg = None -> processNodeUids fj sg st = Some (st, fj', None)) /\
  (params.isGroupBy p = false ->
   params.uidCount p
     && negb ((params.uidCountAlias p =? "")%string && params.Normalize p) = false ->
   forall uids um st',
     uidMatrix sg = Some (uids :: um) ->
     noneAttached sg st uids st' ->
     processNodeUids fj sg st = Some (st', fj', None)) /\
  attrs fj' = attrs fj ++ [mkNode (params.Alias p) 0 true [] [] false] /\
  (forall n later,
      attrs n = attrs fj' ++ later ->
      last (names fj) <> Some (params.Alias p) ->
      hd_error (map attr later) <> Some (params.Alias p) ->
      rootBytes n
      = B "{"
          ++ joinWith (B ",")
               (fieldsOf (fun x => (encode x).2) (attrs fj)
                  ++ (dq ++ B (params.Alias p) ++ dq ++ B ":[]")
                  :: fieldsOf (fun x => (encode x).2) later)
          ++ B "}") /\
  (forall n, rootBytes n = B "{}" -> attrs n = []).
Proof.
  intros p fj' Hagg.
  assert (Hattrs : attrs fj'
                   = attrs fj ++ [mkNode (params.Alias p) 0 true [] [] false])
    by (unfold fj'; destruct fj; reflexivity).
  split; [|split; [|split; [|split]]].
  - intros Hnil. unfold processNodeUids. fold p. rewrite Hagg, Hnil. reflexivity.
  - intros Hgrp Hcnt uids um st' Hum Hnone. unfold processNodeUids. fold p.
    rewrite Hagg, Hum, Hcnt. simpl. rewrite Hgrp.
    unfold index. simpl.
    rewrite (forRange_noneAttached _ _ _ _ _ _ Hnone). reflexivity.
  - exact Hattrs.
  - intros n later Hn Hlast Hhd. apply rootBytes_empty_child; [|exact Hlast|exact Hhd].
    rewrite Hn, Hattrs, <- app_assoc. reflexivity.
  - apply rootBytes_bare.
Qed.
End Claims.

(** * Further properties *)

(** ** Rows and their fields *)

Lemma dropUids_incl s x : In x (dropUids s) -> In x s.
Proof.
  unfold dropUids. destruct (uidRange s 0 (-1) 0) as [f la].
  destruct (negb (f =? -1) && negb (f =? la)); [|auto].
  destruct (f =? 0).
  - intros H. apply list_elem_of_In in H. apply list_elem_of_In.
    eapply subseteq_drop; eauto.
  - intros H. apply in_app_or in H as [H|H]; apply list_elem_of_In in H;
      apply list_elem_of_In.
    + eapply subseteq_take; eauto.
    + eapply subseteq_drop; eauto.
Qed.

Lemma filter_isChild_none l :
  (len (List.filter isChild l) =? 0) = true ->
  List.Forall (fun x => isChild x = false) l.
Proof.
  induction l as [|x l IH]; simpl; [constructor|].
  destruct (isChild x) eqn:E.
  - unfold len. simpl. discriminate.
  - intros H. constructor; auto.
Qed.

Lemma crossProduct_In parent child r :
  In r (crossProduct parent child) ->
  exists pa ca, In pa parent /\ In ca child /\ r = pa ++ ca.
Proof.
  unfold crossProduct. rewrite in_flat_map. intros (pa & Hpa & Hr).
  apply in_map_iff in Hr as (ca & <- & Hca). eauto.
Qed.

Lemma hasAttr_find a fj :
  hasAttr a fj = true ->
  exists i c, list_find (fun c => attr c = a) (attrs fj) = Some (i, c).
Proof.
  unfold hasAttr. intros H. apply existsb_exists in H as (x & Hx & Ea).
  apply String.eqb_eq in Ea.
  destruct (list_find (fun c => attr c = a) (attrs fj)) as [[i c]|] eqn:E; eauto.
  apply list_find_None in E. rewrite Forall_forall in E.
  exfalso. apply (E x); [apply list_elem_of_In; exact Hx | exact Ea].
Qed.

Lemma hasAttr_not_find a fj :
  hasAttr a fj = false -> list_find (fun c => attr c = a) (attrs fj) = None.
Proof.
  unfold hasAttr. intros H. apply list_find_None. apply Forall_forall.
  intros x Hx Ea. apply list_elem_of_In in Hx.
  assert (existsb (fun x => (attr x =? a)%string) (attrs fj) = true).
  { apply existsb_exists. exists x. split; [exact Hx | apply String.eqb_eq, Ea]. }
  congruence.
Qed.

(** X5: the bytes of a node with attached nodes are an opening brace, its
    attributes split into maximal runs of consecutive equal names, each run
    written under one key (a run of one bare unless it is structural or
    list-tagged, a longer run as one array), the runs separated by commas,
    and a closing brace; a node with nothing attached is its scalar
    bytes. *)
Theorem encode_renders_groups (fj : fastJsonNode) :
  (encode fj).2
  = match attrs fj with
    | [] => scalarVal fj
    | _ :: _ =>
        B "{" ++ renderFields (fun x => (encode x).2) (attrs fj) ++ B "}"
    end.
Proof.
  rewrite encode_unfold. destruct (attrs fj) as [|cur rest]; [reflexivity|].
  pose proof (encodeLoop_groups encode cur rest 1 ltac:(lia)) as H.
  change (1 =? 1) with true in H. cbn [negb] in H. cbv iota in H.
  destruct (encodeLoop encode (cur :: rest) 1 false) as [r o].
  cbn [snd] in H. subst o. reflexivity.
Qed.

(** X7: Less is a strict order: no node is less than itself, two nodes are
    never less than each other, and less is transitive. *)
Theorem Less_strict_order :
  (forall a, Less a a = false) /\
  (forall a b, Less a b = true -> Less b a = false) /\
  (forall a b c, Less a b = true -> Less b c = true -> Less a c = true).
Proof.
  split; [|split].
  - intros a. unfold Less. rewrite string_compare_refl. apply Z.ltb_irrefl.
  - intros a b. unfold Less. rewrite (String.compare_antisym (attr a) (attr b)).
    destruct (String.compare (attr b) (attr a)); simpl; try congruence.
    rewrite Z.ltb_lt, Z.ltb_ge. lia.
  - intros a b c. unfold Less.
    destruct (String.compare (attr a) (attr b)) eqn:Hab;
    destruct (String.compare (attr b) (attr c)) eqn:Hbc; try discriminate.
    + rewrite (string_compare_trans Eq _ _ _ Hab Hbc). rewrite !Z.ltb_lt. lia.
    + apply String.compare_eq_iff in Hab. rewrite Hab, Hbc. auto.
    + apply String.compare_eq_iff in Hbc. rewrite <- Hbc, Hab. auto.
    + rewrite (string_compare_trans Lt _ _ _ Hab Hbc). auto.
Qed.

(** X4: dropping the uid fields of a row a second time changes nothing. *)
Theorem dropUids_idempotent (s : row) : dropUids (dropUids s) = dropUids s.
Proof.
  destruct (split_first_uid s) as [Hnone|(pre & u1 & rest & -> & Hpre & Hu1)].
  - rewrite !(dropUids_none _ Hnone). reflexivity.
  - destruct (split_last_uid rest) as [Hnone|(mid & u2 & post & -> & Hu2 & Hpost)].
    + rewrite !(dropUids_one _ _ _ Hpre Hu1 Hnone). reflexivity.
    + rewrite (dropUids_many _ _ _ _ _ Hpre Hu1 Hu2 Hpost).
      apply (dropUids_one _ _ _ Hpre Hu2 Hpost).
Qed.

Lemma AddMapChild_found a val isRoot fj :
  hasAttr a fj = true ->
  exists i c,
    attrs fj !! i = Some c /\ attr c = a /\
    (forall j x, (j < i)%nat -> attrs fj !! j = Some x -> attr x <> a) /\
    attrs (AddMapChild a val isRoot fj)
    = <[i := set_attrs (attrs c ++ attrs val) c]> (attrs fj).
Proof.
  intros H. destruct (hasAttr_find _ _ H) as (i & c & E).
  unfold AddMapChild. rewrite E.
  apply list_find_Some in E as (Hi & Hc & Hbefore).
  exists i, c. repeat split; auto. intros j x Hj Hx. eapply Hbefore; eauto.
Qed.

Lemma AddMapChild_absent a val isRoot fj :
  hasAttr a fj = false ->
  attrs (AddMapChild a val isRoot fj)
  = attrs fj ++ [set_attr a (set_isChild false val)].
Proof.
  intros H. unfold AddMapChild. rewrite (hasAttr_not_find _ _ H). reflexivity.
Qed.

Lemma names_insert_same i c c' l :
  l !! i = Some c -> attr c' = attr c -> map attr (<[i := c']> l) = map attr l.
Proof.
  intros Hi Hc. apply list_eq. intros j. rewrite !list_lookup_fmap.
  destruct (decide (j = i)) as [->|Hne].
  - rewrite list_lookup_insert_eq by (eapply lookup_lt_Some; eauto).
    rewrite Hi. simpl. congruence.
  - rewrite list_lookup_insert_ne by congruence. reflexivity.
Qed.

(** X8: when a node named a is attached already, AddMapChild appends the
    attached nodes of the new node to those of the first node named a and
    leaves every other attached node and every name as it is; when none is,
    it attaches the new node under the name a, not marked as a child. *)
Theorem AddMapChild_merges (a : string) (val fj : fastJsonNode) (isRoot : bool) :
  (hasAttr a fj = true ->
   names (AddMapChild a val isRoot fj) = names fj /\
   exists i c,
     attrs fj !! i = Some c /\ attr c = a /\
     (forall j x, (j < i)%nat -> attrs fj !! j = Some x -> attr x <> a) /\
     attrs (AddMapChild a val isRoot fj) !! i
     = Some (set_attrs (attrs c ++ attrs val) c) /\
     (forall j, j <> i ->
        attrs (AddMapChild a val isRoot fj) !! j = attrs fj !! j)) /\
  (hasAttr a fj = false ->
   attrs (AddMapChild a val isRoot fj)
   = attrs fj ++ [set_attr a (set_isChild false val)]).
Proof.
  split; intros H.
  - destruct (AddMapChild_found a val isRoot fj H) as (i & c & Hi & Hc & Hb & E).
    split.
    + unfold names. rewrite E. eapply names_insert_same; [exact Hi|].
      destruct c; reflexivity.
    + exists i, c. rewrite E. split; [exact Hi|]. split; [exact Hc|].
      split; [exact Hb|]. split.
      * apply list_lookup_insert_eq. eapply lookup_lt_Some; eauto.
      * intros j Hne. apply list_lookup_insert_ne. congruence.
  - apply AddMapChild_absent, H.
Qed.

(** ** Properties that depend on the externals *)

Section Extras.
Context `{Ext : Externals}.

Lemma merge_Ok_inv parent child rows :
  merge parent child = Ok rows ->
  (parent = [] /\ rows = child) \/
  (parent <> [] /\ rows = crossProduct parent child).
Proof.
  unfold merge. destruct parent as [|pa parent].
  - simpl. intros H. inversion H. auto.
  - replace (len (pa :: parent) =? 0) with false
      by (symmetry; apply Z.eqb_neq; unfold len; simpl; lia).
    rewrite mergeOuter_spec.
    destruct (within _); [|discriminate].
    intros H. inversion H. right. split; [discriminate | reflexivity].
Qed.

Lemma mergeGroups_preserves (P : list row -> Prop)
    (norm : fastJsonNode -> result (list row)) :
  (forall a b, P a -> P b -> P (a ++ b)) ->
  (forall p c r, P p -> P c -> merge p c = Ok r -> P r) ->
  forall l grp ps rows,
    List.Forall (fun a => forall r, norm a = Ok r -> P r) l ->
    P ps ->
    (forall n cs, grp = Some (n, cs) -> P cs) ->
    mergeGroups norm l grp ps = Ok rows -> P rows.
Proof.
  intros Happ Hmerge l. induction l as [|a l IH]; intros grp ps rows Hl Hps Hgrp H.
  - simpl in H. destruct grp as [[n cs]|].
    + eapply Hmerge; [exact Hps | eapply Hgrp; reflexivity | exact H].
    + inversion H; subst. exact Hps.
  - inversion Hl as [|? ? Ha Hl']; subst. simpl in H.
    assert (Hstart : forall ps',
      P ps' ->
      (if isChild a
       then match norm a with
            | Ok normalized => mergeGroups norm l (Some (attr a, normalized)) ps'
            | Err e => Err e
            end
       else mergeGroups norm l None ps') = Ok rows -> P rows).
    { intros ps' Hps' H'. destruct (isChild a).
      - destruct (norm a) as [normalized|e] eqn:En; [|discriminate].
        refine (IH _ _ _ Hl' Hps' _ H').
        intros n cs E. inversion E; subst. auto.
      - refine (IH _ _ _ Hl' Hps' _ H'). intros n cs E. discriminate. }
    destruct grp as [[n cs]|].
    + destruct (n =? attr a)%string.
      * destruct (norm a) as [normalized|e] eqn:En; [|discriminate].
        refine (IH _ _ _ Hl' Hps _ H).
        intros n' cs' E. inversion E; subst.
        apply Happ; [eapply Hgrp; reflexivity | auto].
      * destruct (merge ps cs) as [ps'|e] eqn:Em; [|discriminate].
        apply (Hstart ps'); [|exact H].
        eapply Hmerge; [exact Hps | eapply Hgrp; reflexivity | exact Em].
    + apply (Hstart ps); auto.
Qed.

Lemma normalize_rows_nonempty (fj : fastJsonNode) (rows : list row) :
  normalize fj = Ok rows -> rows <> [].
Proof.
  revert rows. induction fj as [a o c v l b IH] using fastJsonNode_tree_ind.
  intros rows H. rewrite normalize_unfold in H. simpl attrs in H.
  destruct (len (List.filter isChild l) =? 0).
  - inversion H. discriminate.
  - destruct (mergeGroups normalize l None _) as [ps|e] eqn:Em; [|discriminate].
    inversion H; subst. clear H.
    assert (Hps : ps <> []).
    { eapply (mergeGroups_preserves (fun r => r <> [])); [| | exact IH | | | exact Em].
      - intros x y Hx _ E. apply app_eq_nil in E as [E _]. auto.
      - intros p c' r Hp Hc Hm. apply merge_Ok_inv in Hm as [[E _]|[_ ->]];
          [congruence|].
        intros E. apply (f_equal (@length _)) in E.
        rewrite crossProduct_length in E. simpl in E.
        destruct p, c'; simpl in *; try congruence; lia.
      - discriminate.
      - intros n cs E. discriminate. }
    destruct ps; [congruence | discriminate].
Qed.

(** X1: when normalize succeeds it returns at least one row, and no field
    of any returned row is marked as a child. *)
Theorem normalize_rows_shape (fj : fastJsonNode) (rows : list row) :
  normalize fj = Ok rows ->
  rows <> [] /\
  List.Forall (fun r => List.Forall (fun x => isChild x = false) r) rows.
Proof.
  intros Hnorm. split; [eapply normalize_rows_nonempty; exact Hnorm|].
  revert rows Hnorm.
  induction fj as [a o c v l b IH] using fastJsonNode_tree_ind.
  intros rows H. rewrite normalize_unfold in H. simpl attrs in H.
  destruct (len (List.filter isChild l) =? 0) eqn:Ecnt.
  - inversion H. constructor; [|constructor]. apply filter_isChild_none, Ecnt.
  - destruct (mergeGroups normalize l None _) as [ps|e] eqn:Em; [|discriminate].
    inversion H; subst. clear H.
    assert (Hps : List.Forall (fun r => List.Forall (fun x => isChild x = false) r) ps).
    { eapply (mergeGroups_preserves
                (List.Forall (fun r => List.Forall (fun x => isChild x = false) r)));
        [| | exact IH | | | exact Em].
      - intros x y Hx Hy. apply List.Forall_app. auto.
      - intros p c' r Hp Hc Hm. apply merge_Ok_inv in Hm as [[_ ->]|[_ ->]];
          [exact Hc|].
        apply List.Forall_forall. intros r Hr.
        apply crossProduct_In in Hr as (pa & ca & Hpa & Hca & ->).
        rewrite List.Forall_forall in Hp, Hc.
        apply List.Forall_app. split; [apply Hp | apply Hc]; auto.
      - constructor; [|constructor]. apply List.Forall_forall. intros x Hx.
        apply List.filter_In in Hx as [_ Hx]. destruct (isChild x); auto; discriminate.
      - intros n cs E. discriminate. }
    apply List.Forall_forall. intros r Hr. apply in_map_iff in Hr as (m & <- & Hm).
    rewrite List.Forall_forall in Hps. specialize (Hps m Hm).
    apply List.Forall_forall. intros x Hx. apply dropUids_incl in Hx.
    assert (Hin : In x m).
    { eapply Permutation_in; [apply sort_Sort_perm | exact Hx]. }
    rewrite List.Forall_forall in Hps. auto.
Qed.

Lemma sumZ_nonneg l : List.Forall (fun x => 0 <= x) l -> 0 <= sumZ l.
Proof. induction 1; simpl; lia. Qed.

Lemma within_total acc l :
  List.Forall (fun x => 0 <= x) l -> l <> [] ->
  within (prefixSums acc l) = true <-> acc + sumZ l <= NormalizeNodeLimit.
Proof.
  intros Hl. revert acc. induction Hl as [|x l Hx Hl IH]; intros acc Hne;
    [congruence|].
  simpl. unfold within in *. simpl. rewrite andb_true_iff, Z.leb_le.
  pose proof (sumZ_nonneg _ Hl) as Hs.
  destruct l as [|y l'].
  - simpl. split; [intros [H _]; lia | intros H; split; [lia | reflexivity]].
  - rewrite (IH (acc + x)) by discriminate. split; [intros [_ H] | intros H; split]; lia.
Qed.

Lemma merge_within_Ok parent child :
  parent <> [] -> child <> [] ->
  sumZ (map len (crossProduct parent child)) <= NormalizeNodeLimit ->
  merge parent child = Ok (crossProduct parent child).
Proof.
  intros Hp Hc H. unfold merge.
  replace (len parent =? 0) with false
    by (symmetry; apply Z.eqb_neq; destruct parent; [congruence | unfold len; simpl; lia]).
  rewrite mergeOuter_spec.
  assert (Hne : map len (crossProduct parent child) <> []).
  { intros E. apply (f_equal (@length _)) in E.
    rewrite length_map, crossProduct_length in E. simpl in E.
    destruct parent, child; simpl in *; try congruence; lia. }
  assert (Hpos : List.Forall (fun x => 0 <= x) (map len (crossProduct parent child))).
  { apply List.Forall_forall. intros x Hx. apply in_map_iff in Hx as (r & <- & _).
    apply len_nonneg. }
  replace (within _) with true; [reflexivity|].
  symmetry. apply (within_total 0 _ Hpos Hne). lia.
Qed.

(** X3: for a parent set and a child set that are not empty, merge succeeds
    with the cross product when the elements of all combined rows together
    are within NormalizeNodeLimit, and fails with the too-many-results
    error when they are more. *)
Theorem merge_succeeds_iff (parent child : list row) :
  parent <> [] -> child <> [] ->
  (sumZ (map len (crossProduct parent child)) <= NormalizeNodeLimit ->
   merge parent child = Ok (crossProduct parent child)) /\
  (sumZ (map len (crossProduct parent child)) > NormalizeNodeLimit ->
   merge parent child = Err tooManyResults).
Proof.
  intros Hp Hc. unfold merge.
  replace (len parent =? 0) with false
    by (symmetry; apply Z.eqb_neq; destruct parent; [congruence | unfold len; simpl; lia]).
  rewrite mergeOuter_spec.
  assert (Hne : map len (crossProduct parent child) <> []).
  { intros E. apply (f_equal (@length _)) in E.
    rewrite length_map, crossProduct_length in E. simpl in E.
    destruct parent, child; simpl in *; try congruence; lia. }
  assert (Hpos : List.Forall (fun x => 0 <= x) (map len (crossProduct parent child))).
  { apply List.Forall_forall. intros x Hx. apply in_map_iff in Hx as (r & <- & _).
    apply len_nonneg. }
  pose proof (within_total 0 _ Hpos Hne) as Hw. simpl in Hw.
  split; intros H.
  - replace (within _) with true; [reflexivity|]. symmetry. apply Hw. lia.
  - destruct (within _) eqn:E; [|reflexivity]. exfalso.
    assert (0 + sumZ (map len (crossProduct parent child)) <= NormalizeNodeLimit)
      by (apply Hw; reflexivity). lia.
Qed.

Lemma mergeGroups_skip norm pre l ps :
  List.Forall (fun x => isChild x = false) pre ->
  mergeGroups norm (pre ++ l) None ps = mergeGroups norm l None ps.
Proof.
  induction 1 as [|x pre Hx _ IH]; [reflexivity|].
  simpl. rewrite Hx. exact IH.
Qed.

Lemma mergeGroups_run norm a ks rest cs ps :
  List.Forall (fun k => attr k = a /\ norm k = Ok [attrs k]) ks ->
  mergeGroups norm (ks ++ rest) (Some (a, cs)) ps
  = mergeGroups norm rest (Some (a, cs ++ map attrs ks)) ps.
Proof.
  intros H. revert cs. induction H as [|k ks [Hk Hn] _ IH]; intros cs.
  - simpl. rewrite app_nil_r. reflexivity.
  - simpl. rewrite Hk, String.eqb_refl, Hn, IH. rewrite <- app_assoc. reflexivity.
Qed.

Lemma mergeGroups_close norm a post cs ps :
  List.Forall (fun x => isChild x = false /\ attr x <> a) post ->
  mergeGroups norm post (Some (a, cs)) ps = merge ps cs.
Proof.
  intros H. destruct H as [|x post [Hx Hn] Hpost]; [reflexivity|].
  simpl. replace (a =? attr x)%string with false
    by (symmetry; apply String.eqb_neq; congruence).
  destruct (merge ps cs) as [ps'|e]; [|reflexivity].
  rewrite Hx.
  rewrite <- (app_nil_r post), mergeGroups_skip; [reflexivity|].
  eapply List.Forall_impl; [|exact Hpost]. intros y [Hy _]. exact Hy.
Qed.

Lemma filter_isChild_app_none l :
  List.Forall (fun x => isChild x = false) l -> List.filter isChild l = [].
Proof. induction 1 as [|x l Hx _ IH]; simpl; [reflexivity|]. rewrite Hx. exact IH. Qed.

Lemma filter_notChild_all l :
  List.Forall (fun x => isChild x = false) l ->
  List.filter (fun a => negb (isChild a)) l = l.
Proof.
  induction 1 as [|x l Hx _ IH]; simpl; [reflexivity|]. rewrite Hx. simpl.
  rewrite IH. reflexivity.
Qed.

Lemma filter_notChild_none l :
  List.Forall (fun x => isChild x = true) l ->
  List.filter (fun a => negb (isChild a)) l = [].
Proof. induction 1 as [|x l Hx _ IH]; simpl; [reflexivity|]. rewrite Hx. exact IH. Qed.

(** X2: a node whose structural children are one run of nodes of one name,
    none with a structural child of its own, between scalar fields, is
    flattened into one row per child: the scalar fields of the node followed
    by the fields of the child, sorted, the uid fields cut down; provided the
    rows together stay within NormalizeNodeLimit. *)
Theorem normalize_one_group (fj : fastJsonNode) (pre kidsL post : list fastJsonNode)
    (a : string) :
  attrs fj = pre ++ kidsL ++ post ->
  kidsL <> [] ->
  List.Forall (fun x => isChild x = false) pre ->
  List.Forall (fun k => isChild k = true /\ attr k = a
                        /\ List.filter isChild (attrs k) = []) kidsL ->
  List.Forall (fun x => isChild x = false /\ attr x <> a) post ->
  sumZ (map (fun k => len ((pre ++ post) ++ attrs k)) kidsL)
  <= NormalizeNodeLimit ->
  normalize fj
  = Ok (map (fun k => dropUids (sort_Sort ((pre ++ post) ++ attrs k))) kidsL).
Proof.
  intros Hattrs Hne Hpre Hkids Hpost Hlimit.
  assert (Hpost' : List.Forall (fun x => isChild x = false) post).
  { eapply List.Forall_impl; [|exact Hpost]. intros y [Hy _]. exact Hy. }
  assert (Hkc : List.Forall (fun x => isChild x = true) kidsL).
  { eapply List.Forall_impl; [|exact Hkids]. intros y [Hy _]. exact Hy. }
  assert (Hnorm : List.Forall (fun k => attr k = a /\ normalize k = Ok [attrs k]) kidsL).
  { eapply List.Forall_impl; [|exact Hkids]. intros k (_ & Hk & Hf).
    split; [exact Hk|]. rewrite normalize_unfold, Hf. reflexivity. }
  rewrite normalize_unfold, Hattrs.
  rewrite !List.filter_app.
  rewrite (filter_isChild_app_none _ Hpre), (filter_isChild_app_none _ Hpost').
  rewrite (filter_notChild_all _ Hpre), (filter_notChild_all _ Hpost').
  rewrite (filter_notChild_none _ Hkc). simpl app. rewrite app_nil_r.
  destruct kidsL as [|k1 ks]; [congruence|].
  inversion Hkids as [|? ? (Hc1 & Ha1 & Hf1) Hks]; subst.
  inversion Hnorm as [|? ? (_ & Hn1) Hnks]; subst.
  replace (len (List.filter isChild (k1 :: ks)) =? 0) with false
    by (simpl; rewrite Hc1; reflexivity).
  rewrite mergeGroups_skip by exact Hpre.
  cbn [app mergeGroups]. rewrite Hc1, Hn1.
  rewrite (mergeGroups_run _ (attr k1) ks post _ _ Hnks).
  rewrite (mergeGroups_close _ _ _ _ _ Hpost).
  assert (Hcross : crossProduct [pre ++ post] ([attrs k1] ++ map attrs ks)
                   = map (fun k => (pre ++ post) ++ attrs k) (k1 :: ks)).
  { unfold crossProduct. simpl. rewrite app_nil_r, map_map. reflexivity. }
  rewrite merge_within_Ok; [| discriminate | discriminate |].
  - rewrite Hcross, map_map. reflexivity.
  - rewrite Hcross, map_map. exact Hlimit.
Qed.

(** X9: attaching never removes or renames what is attached: after
    AddListValue, AddListChild, AddMapChild or SetUID for the name a the
    names are the names before, or the names before followed by a. *)
Theorem attach_keeps_names (a : string) (fj : fastJsonNode) :
  (forall v l fj', AddListValue a v l fj = Some fj' ->
     names fj' = names fj \/ names fj' = names fj ++ [a]) /\
  (forall child, names (AddListChild a child fj) = names fj ++ [a]) /\
  (forall val r,
     names (AddMapChild a val r fj) = names fj
     \/ names (AddMapChild a val r fj) = names fj ++ [a]) /\
  (forall uid,
     names (SetUID uid a fj) = names fj
     \/ names (SetUID uid a fj) = names fj ++ [a]).
Proof.
  split; [|split; [|split]].
  - intros v l fj' H. unfold AddListValue in H.
    destruct (valToBytes v) as [[bs|e]|]; simpl in H; inversion H; subst; auto.
    right. unfold names, appendAttr. simpl. rewrite map_app. reflexivity.
  - intros child. unfold names, AddListChild, appendAttr. simpl.
    rewrite map_app. destruct child; reflexivity.
  - intros val r. destruct (hasAttr a fj) eqn:E.
    + left. destruct (AddMapChild_found a val r fj E) as (i & c & Hi & _ & _ & Ei).
      unfold names. rewrite Ei. eapply names_insert_same; [exact Hi|].
      destruct c; reflexivity.
    + right. unfold names. rewrite (AddMapChild_absent a val r fj E), map_app.
      destruct val; reflexivity.
  - intros uid. unfold SetUID. destruct ((a =? "uid")%string && hasAttr a fj).
    + left. reflexivity.
    + right. unfold names, appendAttr. simpl. rewrite map_app. reflexivity.
Qed.

(** X10: valToBytes, and with it AddListValue, panics exactly when the
    value held is not of the type the switch asserts for a bool, a datetime,
    a geometry or a password. *)
Theorem valToBytes_panics_iff (v : types.Val) :
  (valToBytes v = None <-> assertionFails v = true) /\
  (forall a l fj, AddListValue a v l fj = None <-> assertionFails v = true).
Proof.
  assert (H : valToBytes v = None <-> assertionFails v = true).
  { unfold valToBytes, assertionFails.
    destruct (types.Tid v), (types.Value v); simpl; split;
      try discriminate; try reflexivity;
      destruct (time_IsZero _); discriminate. }
  split; [exact H|].
  intros a l fj. rewrite <- H. unfold AddListValue.
  destruct (valToBytes v) as [[bs|e]|]; simpl; split; congruence.
Qed.

Lemma hasAttr_appendAttr n x fj :
  hasAttr n (appendAttr x fj) = hasAttr n fj || (attr x =? n)%string.
Proof.
  unfold hasAttr, appendAttr. simpl. rewrite existsb_app. simpl.
  rewrite orb_false_r. reflexivity.
Qed.

Lemma AddValue_hasAttr n a v fj fj' :
  AddValue a v fj = Some fj' -> hasAttr n fj = true -> hasAttr n fj' = true.
Proof.
  unfold AddValue, AddListValue. destruct (valToBytes v) as [[bs|e]|]; simpl;
    intros H Hn; inversion H; subst; auto.
  rewrite hasAttr_appendAttr, Hn. reflexivity.
Qed.

Lemma AddValue_IsEmpty a v fj fj' :
  AddValue a v fj = Some fj' -> IsEmpty fj = false -> IsEmpty fj' = false.
Proof.
  unfold AddValue, AddListValue. destruct (valToBytes v) as [[bs|e]|]; simpl;
    intros H Hn; inversion H; subst; auto.
  unfold IsEmpty, appendAttr, len. simpl. rewrite length_app. simpl.
  apply Z.eqb_neq. lia.
Qed.

Lemma SetUID_hasAttr uid fj : hasAttr "uid" (SetUID uid "uid" fj) = true.
Proof.
  unfold SetUID. simpl. destruct (hasAttr "uid" fj) eqn:E; [exact E|].
  rewrite hasAttr_appendAttr. apply orb_true_r.
Qed.

(** X11: without IgnoreReflex preTraverse leaves the parentIds stack of the
    sub-graph as it is, whatever it returns. *)
Theorem preTraverse_stack_untouched (sg : SubGraph) (st st' : Stacks) (uid : Z)
    (dst dst' : fastJsonNode) (err : error) :
  params.IgnoreReflex (Params sg) = false ->
  preTraverse sg st uid dst = Some (st', dst', err) ->
  parentIds st' = parentIds st.
Proof.
  intros Hflag H. rewrite preTraverse_unfold in H. cbv zeta in H.
  rewrite Hflag in H. simpl andb in H. cbv iota in H.
  destruct (traverseChildren preTraverse sg (parentIds st) uid (kids st) dst)
    as [[[[[k ks] d] inv] [e|]]|]; simpl in H; try discriminate.
  - inversion H; subst. reflexivity.
  - destruct (match pathMeta sg with Some _ => _ | None => _ end); simpl in H;
      [|discriminate].
    inversion H; subst. reflexivity.
Qed.

(** X12: after a traversal that returns no error, a shortest-path
    sub-graph has a uid field on the destination node; with GetUid and no
    path weight the destination node is empty or has a uid field. *)
Theorem preTraverse_uid_field (sg : SubGraph) (st st' : Stacks) (uid : Z)
    (dst dst' : fastJsonNode) :
  params.IgnoreReflex (Params sg) && alreadySeen (parentIds st) uid = false ->
  preTraverse sg st uid dst = Some (st', dst', None) ->
  (params.shortest (Params sg) = true -> hasAttr "uid" dst' = true) /\
  (params.GetUid (Params sg) = true -> pathMeta sg = None ->
   IsEmpty dst' = true \/ hasAttr "uid" dst' = true).
Proof.
  intros Hseen H. rewrite preTraverse_unfold in H. cbv zeta in H.
  rewrite Hseen in H.
  destruct (traverseChildren preTraverse sg _ uid (kids st) dst)
    as [[[[[k ks] d] inv] [e|]]|]; simpl in H; try discriminate.
  split.
  - intros Hs. rewrite Hs, orb_true_r in H.
    destruct (pathMeta sg) as [m|]; simpl in H.
    + inversion H; subst. rewrite hasAttr_appendAttr, SetUID_hasAttr. reflexivity.
    + inversion H; subst. apply SetUID_hasAttr.
  - intros Hg Hp. rewrite Hg, Hp in H. simpl in H. inversion H; subst. clear H.
    destruct (IsEmpty d) eqn:Ed; simpl.
    + destruct (params.shortest (Params sg)); [right; apply SetUID_hasAttr | left; exact Ed].
    + right. apply SetUID_hasAttr.
Qed.

(** X13: a child predicate that is ignored, or has no uid matrix, or does
    not hold the uid among its source uids, leaves the stacks, the
    destination node and the invalid uids as they are; a facets matrix of
    another length than the uid matrix is the mismatch error. *)
Theorem traverseChild_skips
    (rec : Stacks -> Z -> fastJsonNode -> option (Stacks * fastJsonNode * error))
    (sg pc : SubGraph) (sgIds : list Z) (uid : Z) (s : childState) :
  let p := Params pc in
  (params.ignoreResult p = true ->
   traverseChild rec sg pc sgIds uid s = Some (s, None)) /\
  (params.ignoreResult p = false -> params.isInternal p = false ->
   rowsOf (uidMatrix pc) = [] ->
   traverseChild rec sg pc sgIds uid s = Some (s, None)) /\
  (params.ignoreResult p = false -> params.isInternal p = false ->
   rowsOf (uidMatrix pc) <> [] ->
   facetsMatrix pc <> [] ->
   length (facetsMatrix pc) <> length (rowsOf (uidMatrix pc)) ->
   traverseChild rec sg pc sgIds uid s
   = Some (s, Some (errMismatch (len (facetsMatrix pc))
                      (len (rowsOf (uidMatrix pc)))))) /\
  (params.ignoreResult p = false -> params.isInternal p = false ->
   rowsOf (uidMatrix pc) <> [] ->
   (facetsMatrix pc = [] \/
    length (facetsMatrix pc) = length (rowsOf (uidMatrix pc))) ->
   algo_IndexOf (SrcUIDs pc) uid < 0 ->
   traverseChild rec sg pc sgIds uid s = Some (s, None)).
Proof.
  intros p. destruct s as [[kst dst] inv]. unfold traverseChild. fold p.
  assert (Hlen0 : forall A (l : list A), l <> [] -> (len l =? 0) = false).
  { intros A l Hl. apply Z.eqb_neq. destruct l; [congruence | unfold len; simpl; lia]. }
  assert (Hgt0 : forall A (l : list A), l <> [] -> (len l >? 0) = true).
  { intros A l Hl. apply Z.gtb_lt. destruct l; [congruence | unfold len; simpl; lia]. }
  split; [|split; [|split]].
  - intros ->. reflexivity.
  - intros -> -> ->. reflexivity.
  - intros -> -> Hum Hfm Hne. rewrite (Hlen0 _ _ Hum), (Hgt0 _ _ Hfm).
    replace (len (facetsMatrix pc) =? len (rowsOf (uidMatrix pc))) with false
      by (symmetry; apply Z.eqb_neq; unfold len; lia).
    reflexivity.
  - intros -> -> Hum Hfm Hidx. rewrite (Hlen0 _ _ Hum).
    replace ((len (facetsMatrix pc) >? 0)
             && negb (len (facetsMatrix pc) =? len (rowsOf (uidMatrix pc))))
      with false.
    + replace (algo_IndexOf (SrcUIDs pc) uid <? 0) with true
        by (symmetry; apply Z.ltb_lt; exact Hidx).
      reflexivity.
    + symmetry. destruct Hfm as [->|E]; [reflexivity|].
      replace (len (facetsMatrix pc) =? len (rowsOf (uidMatrix pc))) with true
        by (symmetry; apply Z.eqb_eq; unfold len; lia).
      apply andb_false_r.
Qed.

(** X14: a destination uid found invalid before is passed over without a
    recursive call; a recursive call that returns the error _INV_ marks
    the uid invalid, attaches nothing and does not end the traversal, any
    other error is returned. *)
Theorem traverseUid_pruned
    (rec : Stacks -> Z -> fastJsonNode -> option (Stacks * fastJsonNode * error))
    (sg pc : SubGraph) (fname : string) (fcsList : list (list api.Facet))
    (childIdx childUID : Z) (kst : Stacks) (dst : fastJsonNode)
    (invalidUids : gset Z) :
  (childUID ∈ invalidUids ->
   traverseUid rec sg pc fname fcsList (childIdx, childUID)
     (kst, dst, invalidUids)
   = Some ((kst, dst, invalidUids), None)) /\
  (fname <> ""%string -> childUID ∉ invalidUids ->
   forall kst' uc e,
     rec kst childUID (New fname) = Some (kst', uc, Some e) ->
     traverseUid rec sg pc fname fcsList (childIdx, childUID)
       (kst, dst, invalidUids)
     = if (e =? "_INV_")%string
       then Some ((kst', dst, {[childUID]} ∪ invalidUids), None)
       else Some ((kst', dst, invalidUids), Some e)).
Proof.
  split.
  - intros Hin. unfold traverseUid. rewrite (bool_decide_eq_true_2 _ Hin).
    rewrite orb_true_r. reflexivity.
  - intros Hf Hnin kst' uc e Hrec. unfold traverseUid.
    rewrite (bool_decide_eq_false_2 _ Hnin).
    replace (fname =? "")%string with false
      by (symmetry; apply String.eqb_neq; exact Hf).
    simpl orb. cbv iota. rewrite Hrec. simpl.
    destruct (e =? "_INV_")%string; reflexivity.
Qed.

Lemma forRange_inv {A S : Type} (body : A -> S -> option (S * error))
    (P : S -> Prop) :
  (forall x s s' e, P s -> body x s = Some (s', e) -> P s') ->
  forall l s s' e, P s -> forRange body l s = Some (s', e) -> P s'.
Proof.
  intros Hbody l. induction l as [|x l IH]; intros s s' e Hs H; simpl in H.
  - inversion H; subst. exact Hs.
  - destruct (body x s) as [[s1 [e1|]]|] eqn:E; try discriminate.
    + inversion H; subst. eapply Hbody; eauto.
    + eapply IH; [|exact H]. eapply Hbody; eauto.
Qed.

Lemma forRange_inv_ok {A S : Type} (body : A -> S -> option (S * error))
    (P : S -> Prop) :
  (forall x s s', P s -> body x s = Some (s', None) -> P s') ->
  forall l s s', P s -> forRange body l s = Some (s', None) -> P s'.
Proof.
  intros Hbody l. induction l as [|x l IH]; intros s s' Hs H; simpl in H.
  - inversion H; subst. exact Hs.
  - destruct (body x s) as [[s1 [e1|]]|] eqn:E; try discriminate.
    eapply IH; [|exact H]. eapply Hbody; eauto.
Qed.

Lemma forEach_None {A S : Type} (body : A -> S -> option S) l :
  foldl (fun acc x => acc ≫= body x) None l = None.
Proof. induction l; simpl; auto. Qed.

Lemma forEach_cons {A S : Type} (body : A -> S -> option S) x l s :
  forEach body (x :: l) s = body x s ≫= forEach body l.
Proof.
  unfold forEach. simpl. destruct (body x s); simpl; [reflexivity|].
  apply forEach_None.
Qed.

Lemma forEach_inv {A S : Type} (body : A -> S -> option S) (P : S -> Prop) :
  (forall x s s', P s -> body x s = Some s' -> P s') ->
  forall l s s', P s -> forEach body l s = Some s' -> P s'.
Proof.
  intros Hbody l. induction l as [|x l IH]; intros s s' Hs H.
  - inversion H; subst. exact Hs.
  - rewrite forEach_cons in H. destruct (body x s) as [s1|] eqn:E; simpl in H;
      [|discriminate].
    eapply IH; [|exact H]. eapply Hbody; eauto.
Qed.

Lemma prefix_AddListChild a child fj :
  attrs fj `prefix_of` attrs (AddListChild a child fj).
Proof. unfold AddListChild, appendAttr. simpl. apply prefix_app_r. reflexivity. Qed.

Lemma hasAttr_AddListChild a child fj : hasAttr a (AddListChild a child fj) = true.
Proof.
  unfold AddListChild. rewrite hasAttr_appendAttr.
  destruct child; simpl. rewrite String.eqb_refl. apply orb_true_r.
Qed.

Lemma hasAttr_prefix n fj fj' :
  attrs fj `prefix_of` attrs fj' -> hasAttr n fj = true -> hasAttr n fj' = true.
Proof.
  intros [k Hk] H. unfold hasAttr in *. rewrite Hk, existsb_app, H. reflexivity.
Qed.

Lemma hasAttr_not_empty n fj : hasAttr n fj = true -> IsEmpty fj = false.
Proof.
  unfold hasAttr, IsEmpty. destruct (attrs fj); simpl; [discriminate|].
  intros _. reflexivity.
Qed.

Lemma prefix_not_empty fj fj' :
  attrs fj `prefix_of` attrs fj' -> IsEmpty fj = false -> IsEmpty fj' = false.
Proof.
  intros [k Hk]. unfold IsEmpty. rewrite Hk. unfold len. rewrite length_app.
  rewrite !Z.eqb_neq. lia.
Qed.

Lemma addGroupby_prefix sg res f fj fj' :
  addGroupby sg res f fj = Some fj' -> attrs fj `prefix_of` attrs fj'.
Proof.
  unfold addGroupby. destruct (len (group res) =? 0).
  - intros H. inversion H. reflexivity.
  - destruct (forEach _ (group res) (New f)) as [g|]; simpl; [|discriminate].
    intros H. inversion H. apply prefix_AddListChild.
Qed.

Lemma addCountAtRoot_Some sg fj fj' :
  addCountAtRoot sg fj = Some fj' ->
  exists n1, fj' = AddListChild (params.Alias (Params sg)) n1 fj.
Proof.
  unfold addCountAtRoot. destruct (AddValue _ _ _) as [n1|]; simpl; [|discriminate].
  intros H. inversion H. eauto.
Qed.

Lemma addAggregations_prefix sg fj fj' err :
  addAggregations sg fj = Some (fj', err) -> attrs fj `prefix_of` attrs fj'.
Proof.
  unfold addAggregations.
  destruct (forRange _ (Children sg) fj) as [[fj1 e1]|] eqn:E; simpl; [|discriminate].
  assert (H1 : attrs fj `prefix_of` attrs fj1).
  { eapply (forRange_inv _ (fun x => attrs fj `prefix_of` attrs x));
      [| reflexivity | exact E].
    intros child s s' e Hs Hb. cbv beta zeta in Hb.
    assert (Hc : forall aggVal,
      (if params.Normalize (Params child) && (params.Alias (Params child) =? "")%string
       then Some (s, None)
       else AddValue (aggWithVarFieldName child) aggVal (New (aggWithVarFieldName child))
            ≫= (fun n1 => Some (AddListChild (params.Alias (Params sg)) n1 s, None)))
      = Some (s', e) -> attrs fj `prefix_of` attrs s').
    { intros aggVal Hx. destruct (_ && _).
      - inversion Hx; subst. exact Hs.
      - destruct (AddValue (aggWithVarFieldName child) aggVal
                    (New (aggWithVarFieldName child))) as [n1|];
          simpl in Hx; [|discriminate].
        inversion Hx; subst. etransitivity; [exact Hs | apply prefix_AddListChild]. }
    destruct (params.uidToVal (Params child) !! 0) as [aggVal|].
    - exact (Hc aggVal Hb).
    - destruct (len (params.NeedsVar (Params child)) =? 0).
      + inversion Hb; subst. exact Hs.
      + exact (Hc _ Hb). }
  destruct e1 as [e|].
  - intros H. inversion H; subst. exact H1.
  - destruct (IsEmpty fj1); intros H; inversion H; subst; [|exact H1].
    etransitivity; [exact H1 | apply prefix_AddListChild].
Qed.

Lemma addAggregations_not_empty sg fj fj' :
  addAggregations sg fj = Some (fj', None) -> IsEmpty fj' = false.
Proof.
  unfold addAggregations.
  destruct (forRange _ (Children sg) fj) as [[fj1 [e|]]|]; simpl; try discriminate.
  destruct (IsEmpty fj1) eqn:E; intros H; inversion H; subst; [|exact E].
  eapply hasAttr_not_empty, hasAttr_AddListChild.
Qed.

Lemma foldl_AddListChild_prefix a (f : row -> fastJsonNode) rows fj :
  attrs fj `prefix_of`
    attrs (foldl (fun fj c => AddListChild a (f c) fj) fj rows).
Proof.
  revert fj. induction rows as [|r rows IH]; intros fj; simpl; [reflexivity|].
  etransitivity; [apply (prefix_AddListChild a (f r)) | apply IH].
Qed.

Lemma foldl_AddListChild_hasAttr a (f : row -> fastJsonNode) rows fj :
  rows <> [] ->
  hasAttr a (foldl (fun fj c => AddListChild a (f c) fj) fj rows) = true.
Proof.
  destruct rows as [|r rows]; [congruence|]. intros _. simpl.
  eapply hasAttr_prefix; [apply foldl_AddListChild_prefix|].
  apply hasAttr_AddListChild.
Qed.

Lemma processUid_prefix sg uid st fj h st' fj' h' e :
  processUid sg uid (st, fj, h) = Some ((st', fj', h'), e) ->
  attrs fj `prefix_of` attrs fj'.
Proof.
  unfold processUid. destruct (algo_IndexOf (DestUIDs sg) uid <? 0).
  { intros H. inversion H. reflexivity. }
  destruct (preTraverse sg st uid _) as [[[st1 n1] [e1|]]|]; simpl; try discriminate.
  - destruct (e1 =? "_INV_")%string; intros H; inversion H; reflexivity.
  - destruct (IsEmpty n1); [intros H; inversion H; reflexivity|].
    destruct (negb (params.Normalize (Params sg))).
    + intros H. inversion H. apply prefix_AddListChild.
    + destruct (normalize n1) as [rows|e2]; intros H; inversion H; [|reflexivity].
      apply foldl_AddListChild_prefix.
Qed.

Lemma processUid_key sg uid st fj h st' fj' h' :
  processUid sg uid (st, fj, h) = Some ((st', fj', h'), None) ->
  (h = true -> hasAttr (params.Alias (Params sg)) fj = true) ->
  (h' = true -> hasAttr (params.Alias (Params sg)) fj' = true).
Proof.
  unfold processUid. destruct (algo_IndexOf (DestUIDs sg) uid <? 0).
  { intros H. inversion H; subst. auto. }
  destruct (preTraverse sg st uid _) as [[[st1 n1] [e1|]]|]; simpl; try discriminate.
  - destruct (e1 =? "_INV_")%string; intros H; inversion H; subst; auto.
  - destruct (IsEmpty n1); [intros H; inversion H; subst; auto|].
    destruct (negb (params.Normalize (Params sg))).
    + intros H. inversion H. intros _ _. apply hasAttr_AddListChild.
    + destruct (normalize n1) as [rows|e2] eqn:En; intros H; inversion H.
      intros _ _. apply foldl_AddListChild_hasAttr.
      eapply normalize_rows_nonempty; eauto.
Qed.

Lemma processUids_prefix sg uids st fj h st' fj' h' e :
  forRange (processUid sg) uids (st, fj, h) = Some ((st', fj', h'), e) ->
  attrs fj `prefix_of` attrs fj'.
Proof.
  revert st fj h. induction uids as [|uid uids IH]; intros st fj h H.
  - inversion H. reflexivity.
  - cbn [forRange] in H.
    destruct (processUid sg uid (st, fj, h)) as [[[[st1 fj1] h1] [e1|]]|] eqn:E;
      try discriminate.
    + inversion H; subst. eapply processUid_prefix; eauto.
    + etransitivity; [eapply processUid_prefix; eauto | eapply IH; eauto].
Qed.

Lemma processUids_key sg uids st fj h st' fj' h' :
  forRange (processUid sg) uids (st, fj, h) = Some ((st', fj', h'), None) ->
  (h = true -> hasAttr (params.Alias (Params sg)) fj = true) ->
  (h' = true -> hasAttr (params.Alias (Params sg)) fj' = true).
Proof.
  revert st fj h. induction uids as [|uid uids IH]; intros st fj h H H0.
  - inversion H; subst. exact H0.
  - cbn [forRange] in H.
    destruct (processUid sg uid (st, fj, h)) as [[[[st1 fj1] h1] [e1|]]|] eqn:E;
      try discriminate.
    eapply IH; [exact H|]. eapply processUid_key; eauto.
Qed.

Lemma processNodeUids_prefix (fj fj' : fastJsonNode) (sg : SubGraph)
    (st st' : Stacks) (err : error) :
  processNodeUids fj sg st = Some (st', fj', err) ->
  attrs fj `prefix_of` attrs fj'.
Proof.
  unfold processNodeUids.
  destruct (params.IsEmpty (Params sg)).
  { destruct (addAggregations sg fj) as [[fj1 e1]|] eqn:E; simpl; [|discriminate].
    intros H. inversion H; subst. eapply addAggregations_prefix; eauto. }
  destruct (uidMatrix sg) as [um|].
  2: { intros H. inversion H. apply prefix_AddListChild. }
  destruct (params.uidCount (Params sg) && _).
  - destruct (addCountAtRoot sg fj) as [fj1|] eqn:E; simpl; [|discriminate].
    apply addCountAtRoot_Some in E as [n1 ->].
    assert (H0 := prefix_AddListChild (params.Alias (Params sg)) n1 fj).
    destruct (params.isGroupBy (Params sg)).
    + destruct (GroupbyRes sg) as [|res rest].
      * intros H. inversion H; subst. exact H0.
      * destruct (addGroupby _ _ _ _) as [fj2|] eqn:Eg; simpl; [|discriminate].
        intros H. inversion H; subst. etransitivity; [exact H0|].
        eapply addGroupby_prefix; eauto.
    + destruct (index um 0) as [uids|]; simpl; [|discriminate].
      destruct (forRange _ uids _) as [[[[st1 fj1] h1] e1]|] eqn:El; simpl;
        [|discriminate].
      assert (H1 : attrs (AddListChild (params.Alias (Params sg)) n1 fj)
                     `prefix_of` attrs fj1)
        by (eapply processUids_prefix; exact El).
      destruct e1 as [e|]; intros H.
      * inversion H; subst. etransitivity; eauto.
      * destruct (negb h1); inversion H; subst; [|etransitivity; eauto].
        etransitivity; [exact H0|]. etransitivity; [exact H1|].
        apply prefix_AddListChild.
  - simpl. destruct (params.isGroupBy (Params sg)).
    + destruct (GroupbyRes sg) as [|res rest].
      * intros H. inversion H; subst. reflexivity.
      * destruct (addGroupby _ _ _ _) as [fj2|] eqn:Eg; simpl; [|discriminate].
        intros H. inversion H; subst. eapply addGroupby_prefix; eauto.
    + destruct (index um 0) as [uids|]; simpl; [|discriminate].
      destruct (forRange _ uids _) as [[[[st1 fj1] h1] e1]|] eqn:El; simpl;
        [|discriminate].
      assert (H1 : attrs fj `prefix_of` attrs fj1)
        by (eapply processUids_prefix; exact El).
      destruct e1 as [e|]; intros H.
      * inversion H; subst. exact H1.
      * destruct (negb h1); inversion H; subst; [|exact H1].
        etransitivity; [exact H1|]. apply prefix_AddListChild.
Qed.

Lemma processNodeUids_key (fj fj' : fastJsonNode) (sg : SubGraph)
    (st st' : Stacks) :
  processNodeUids fj sg st = Some (st', fj', None) ->
  (params.IsEmpty (Params sg) = true -> IsEmpty fj' = false) /\
  (params.IsEmpty (Params sg) = false ->
   params.isGroupBy (Params sg) = false ->
   hasAttr (params.Alias (Params sg)) fj' = true).
Proof.
  intros H. split.
  - intros Hagg. unfold processNodeUids in H. rewrite Hagg in H.
    destruct (addAggregations sg fj) as [[fj1 e1]|] eqn:E; simpl in H; [|discriminate].
    inversion H; subst. eapply addAggregations_not_empty; eauto.
  - intros Hagg Hgrp. unfold processNodeUids in H. rewrite Hagg in H.
    destruct (uidMatrix sg) as [um|].
    2: { inversion H. apply hasAttr_AddListChild. }
    set (alias := params.Alias (Params sg)) in *.
    assert (Hloop : forall h0 fj0 uids st1 fj1 h1,
      (h0 = true -> hasAttr alias fj0 = true) ->
      forRange (processUid sg) uids (st, fj0, h0) = Some ((st1, fj1, h1), None) ->
      (h1 = true -> hasAttr alias fj1 = true)).
    { intros h0 fj0 uids st1 fj1 h1 H0 El. eapply processUids_key; eauto. }
    destruct (params.uidCount (Params sg) && _).
    + destruct (addCountAtRoot sg fj) as [fj1|] eqn:E; simpl in H; [|discriminate].
      apply addCountAtRoot_Some in E as [n1 ->].
      rewrite Hgrp in H.
      destruct (index um 0) as [uids|]; simpl in H; [|discriminate].
      destruct (forRange _ uids _) as [[[[st1 fj1] h1] [e1|]]|] eqn:El; simpl in H;
        try discriminate.
      pose proof (Hloop true _ uids st1 fj1 h1
                    (fun _ => hasAttr_AddListChild alias n1 fj) El) as Hk.
      destruct h1; simpl in H; inversion H; subst; auto.
      apply hasAttr_AddListChild.
    + simpl in H. rewrite Hgrp in H.
      destruct (index um 0) as [uids|]; simpl in H; [|discriminate].
      destruct (forRange _ uids _) as [[[[st1 fj1] h1] [e1|]]|] eqn:El; simpl in H;
        try discriminate.
      pose proof (Hloop false _ uids st1 fj1 h1 ltac:(discriminate) El) as Hk.
      destruct h1; simpl in H; inversion H; subst; auto.
      apply hasAttr_AddListChild.
Qed.

(** X15: processNodeUids only appends to the root node, whatever it
    returns; when it returns no error the root node of an empty-block
    aggregation is not empty, and a block that is neither that nor a
    group-by has a node under its alias on the root. *)
Theorem processNodeUids_attaches (fj fj' : fastJsonNode) (sg : SubGraph)
    (st st' : Stacks) (err : error) :
  processNodeUids fj sg st = Some (st', fj', err) ->
  attrs fj `prefix_of` attrs fj' /\
  (err = None ->
   (params.IsEmpty (Params sg) = true -> IsEmpty fj' = false) /\
   (params.IsEmpty (Params sg) = false ->
    params.isGroupBy (Params sg) = false ->
    hasAttr (params.Alias (Params sg)) fj' = true)).
Proof.
  intros H. split.
  - eapply processNodeUids_prefix. exact H.
  - intros ->. eapply processNodeUids_key. exact H.
Qed.

Lemma addGroupby_groups (g0 g : fastJsonNode) (l : list groupResult) :
  forEach (fun grp g =>
      uc ← forEach (fun it uc => AddValue (gp_attr it) (key it) uc)
             (keys grp) (New "@groupby");
      uc ← forEach (fun it uc => AddValue (gp_attr it) (key it) uc)
             (aggregates grp) uc;
      Some (AddListChild "@groupby" uc g)) l g0 = Some g ->
  exists ks, attrs g = attrs g0 ++ ks /\
             map attr ks = map (fun _ => "@groupby"%string) l /\
             List.Forall (fun uc => isChild uc = true) ks /\
             attr g = attr g0.
Proof.
  revert g0. induction l as [|grp l IH]; intros g0 H.
  - inversion H; subst. exists []. rewrite app_nil_r. repeat split; constructor.
  - rewrite forEach_cons in H.
    destruct (forEach _ (keys grp) (New "@groupby")) as [uc1|]; simpl in H;
      [|discriminate].
    destruct (forEach _ (aggregates grp) uc1) as [uc2|]; simpl in H;
      [|discriminate].
    apply IH in H as (ks & Hattrs & Hnames & Hchild & Hattr).
    exists (set_isChild true (set_attr "@groupby" uc2) :: ks).
    split; [|split; [|split]].
    + rewrite Hattrs. unfold AddListChild, appendAttr. simpl.
      rewrite <- app_assoc. reflexivity.
    + simpl. rewrite Hnames. reflexivity.
    + constructor; [reflexivity | exact Hchild].
    + rewrite Hattr. reflexivity.
Qed.

(** X18: addGroupby adds nothing for a result without groups; otherwise it
    appends one child under the given name holding one child named
    @groupby for every group, in order. *)
Theorem addGroupby_shape (sg : SubGraph) (res : groupResults) (f : string)
    (fj fj' : fastJsonNode) :
  addGroupby sg res f fj = Some fj' ->
  (group res = [] /\ fj' = fj) \/
  (group res <> [] /\
   exists g, attrs fj' = attrs fj ++ [g] /\ attr g = f /\ isChild g = true /\
             map attr (attrs g) = map (fun _ => "@groupby"%string) (group res) /\
             List.Forall (fun uc => isChild uc = true) (attrs g)).
Proof.
  unfold addGroupby. destruct (group res) as [|grp l] eqn:E.
  - intros H. inversion H. auto.
  - replace (len (grp :: l) =? 0) with false by reflexivity.
    destruct (forEach _ (grp :: l) (New f)) as [g|] eqn:Eg; simpl; [|discriminate].
    intros H. inversion H; subst. right. split; [discriminate|].
    apply addGroupby_groups in Eg as (ks & Hattrs & Hnames & Hchild & Hattr).
    simpl in Hattrs.
    exists (set_isChild true (set_attr f g)). unfold AddListChild, appendAttr.
    simpl. repeat split; auto; rewrite Hattrs; auto.
Qed.

(** X17: a block whose alias is var or shortest has no part in what
    ToJson returns. *)
Theorem ToJson_skips_var_shortest (l1 l2 : list SubGraph) (sg : SubGraph) :
  params.Alias (Params sg) = "var"%string
  \/ params.Alias (Params sg) = "shortest"%string ->
  ToJson (l1 ++ sg :: l2) = ToJson (l1 ++ l2).
Proof.
  intros H. unfold ToJson. rewrite !List.filter_app. simpl.
  replace (negb ((params.Alias (Params sg) =? "var")%string
                 || (params.Alias (Params sg) =? "shortest")%string)) with false.
  - reflexivity.
  - destruct H as [-> | ->]; reflexivity.
Qed.

Lemma toFastJSON_loop_not_empty l k ks n k' ks' n' :
  forRange (fun child (s : nat * list Stacks * fastJsonNode) =>
      let '(k, ks, n) := s in
      '(kst, n, err) ← processNodeUids n child (kidAt k ks);
      Some ((S k, setKid k kst ks, n), err)) l (k, ks, n)
  = Some ((k', ks', n'), None) ->
  IsEmpty n = false
  \/ List.Exists (fun c => params.isGroupBy (Params c) = false
                           \/ params.IsEmpty (Params c) = true) l ->
  IsEmpty n' = false.
Proof.
  revert k ks n. induction l as [|c l IH]; intros k ks n H Hor.
  - inversion H; subst. destruct Hor as [Hn|Hex]; [exact Hn | inversion Hex].
  - cbn [forRange] in H.
    destruct (processNodeUids n c (kidAt k ks)) as [[[kst n1] [e|]]|] eqn:E;
      simpl in H; try discriminate.
    apply IH in H; [exact H|].
    destruct Hor as [Hn|Hex].
    + left. eapply prefix_not_empty; [eapply processNodeUids_prefix; eauto | exact Hn].
    + inversion Hex as [? ? Hc|? ? Hl]; subst; [|right; exact Hl].
      left. pose proof (processNodeUids_key _ _ _ _ _ E) as [Ha Hb].
      destruct (params.IsEmpty (Params c)) eqn:Eagg; [auto|].
      destruct Hc as [Hc|Hc]; [|discriminate].
      eapply hasAttr_not_empty; eauto.
Qed.

(** X16: when toFastJSON returns bytes for a sub-graph with a block that is
    not a group-by, or is an empty-block aggregation, the bytes are not the
    bare empty object. *)
Theorem toFastJSON_bare_only_groupby (sg : SubGraph) (st st' : Stacks)
    (out : bytes) :
  toFastJSON sg st = Some (st', Ok out) ->
  List.Exists (fun c => params.isGroupBy (Params c) = false
                        \/ params.IsEmpty (Params c) = true) (Children sg) ->
  out <> B "{}".
Proof.
  unfold toFastJSON. intros H Hex.
  destruct (forRange _ (Children sg) _) as [[[[k ks] n] [e|]]|] eqn:E;
    simpl in H; try discriminate.
  inversion H; subst. intros Hb. apply rootBytes_bare in Hb.
  apply toFastJSON_loop_not_empty in E; [|right; exact Hex].
  unfold IsEmpty in E. rewrite Hb in E. discriminate.
Qed.

End Extras.

(** * The claims on concrete inputs *)

Definition notAfter_dec (a b : fastJsonNode) : Decision (notAfter a b).
Proof. unfold notAfter. apply _. Defined.

Definition refExternals : Externals := {|
  sort_Sort := @merge_sort _ notAfter notAfter_dec;
  sort_Sort_perm := @merge_sort_Permutation _ notAfter notAfter_dec;
  sort_Sort_ascending :=
    @StronglySorted_merge_sort _ notAfter notAfter_dec
      notAfter_trans notAfter_total;
  json_Marshal := fun v => Ok (quoteString v);
  fmt_Sprintf := fun verb v => quoteString v;
  time_IsZero := fun t => t =? 0;
  time_MarshalJSON := fun t => Ok (dq ++ B (decimal t) ++ dq);
  geojson_Marshal := fun g => Ok g;
  algo_IndexOf := fun l uid => linearIndexOf l uid 0;
  facets_ValFor := fun f =>
    Ok (types.mkVal types.StringID (types.VBytes (api.Value f)));
  convertWithBestEffort := fun tv a =>
    Ok (types.mkVal types.StringID (types.VBytes (pb.Val tv)));
  task_ToBool := fun tv => negb (len (pb.Val tv) =? 0);
  FacetDelimeter := "|";
  NormalizeNodeLimit := 10000
|}.

(** Externals whose facet values cannot be read, which [facets.ValFor]
    reports with the text a subtree is pruned for. *)
Definition pruningExternals : Externals := {|
  sort_Sort := sort_Sort (Externals := refExternals);
  sort_Sort_perm := sort_Sort_perm (Externals := refExternals);
  sort_Sort_ascending := sort_Sort_ascending (Externals := refExternals);
  json_Marshal := json_Marshal (Externals := refExternals);
  fmt_Sprintf := fmt_Sprintf (Externals := refExternals);
  time_IsZero := time_IsZero (Externals := refExternals);
  time_MarshalJSON := time_MarshalJSON (Externals := refExternals);
  geojson_Marshal := geojson_Marshal (Externals := refExternals);
  algo_IndexOf := algo_IndexOf (Externals := refExternals);
  facets_ValFor := fun f => Err "_INV_"%string;
  convertWithBestEffort := convertWithBestEffort (Externals := refExternals);
  task_ToBool := task_ToBool (Externals := refExternals);
  FacetDelimeter := "|";
  NormalizeNodeLimit := 10000
|}.

(** The scenario of a root block with one matched uid and a scalar child:
    the uid field is attached after the fields of the children. *)
Example people_scenario :
  ToJson (Ext := refExternals)
    [mkSubGraph "me" (set_GetUid true (withAlias "people" zeroParams)) [] [1]
       (Some [[1]]) [] [] [] [] [] None false None [namePredicate]]
  = Some (mkStacks [] [mkStacks [] [emptyStacks]],
          Ok (Q "{'people':[{'name':'Alice','uid':'0x1'}]}")).
Proof. vm_compute. reflexivity. Qed.

(** C1: a row with two uid fields comes back from a node without a
    structural child; with a structural child the uid field left is the one
    in the last position of the sorted row, not the first. *)
Lemma normalize_uid_counterexample :
  normalize (Ext := refExternals) twoUids
  = Ok [[scalar "uid" "1" 0; scalar "uid" "2" 0]] /\
  ~ (length (List.filter isUid [scalar "uid" "1" 0; scalar "uid" "2" 0]) <= 1)%nat /\
  sort_Sort (Externals := refExternals) [scalar "uid" "1" 0; scalar "uid" "2" 1]
  = [scalar "uid" "1" 0; scalar "uid" "2" 1] /\
  normalize (Ext := refExternals) nestedUids = Ok [[scalar "uid" "2" 1]].
Proof.
  split; [vm_compute; reflexivity|].
  split; [vm_compute; lia|].
  split; vm_compute; reflexivity.
Qed.

Lemma normalize_uid_rows_witness :
  exists merged,
    mergeGroups (Ext := refExternals) (normalize (Ext := refExternals))
      (attrs nestedUids) None
      [List.filter (fun a => negb (isChild a)) (attrs nestedUids)] = Ok merged /\
    [[scalar "uid" "2" 1]]
    = map (fun m => dropUids (sort_Sort (Externals := refExternals) m)) merged /\
    List.Forall (fun m =>
        (length (List.filter isUid
                   (dropUids (sort_Sort (Externals := refExternals) m))) <= 1)%nat /\
        List.filter isUid (dropUids (sort_Sort (Externals := refExternals) m))
        = option_list (lastUid (sort_Sort (Externals := refExternals) m)) /\
        List.filter notUid (dropUids (sort_Sort (Externals := refExternals) m))
        = List.filter notUid (sort_Sort (Externals := refExternals) m) /\
        Permutation (sort_Sort (Externals := refExternals) m) m) merged.
Proof.
  apply (proj2 (normalize_uid_rows (Ext := refExternals) nestedUids)).
  - vm_compute. discriminate.
  - vm_compute. reflexivity.
Defined.

(** C2: a call that returns the length-mismatch error leaves the uid it
    pushed on the stack.  A call that is pruned leaves it too, and the
    traversal goes on: of the friends 2 and 3 of uid 1 the first is pruned,
    the call for uid 3 is entered with uid 2 on its stack, and the stack of
    the predicate ends as [1; 2] with no call for uid 2 open; the check of
    the open path fails there. *)
Lemma preTraverse_stack_counterexample :
  (preTraverse (Ext := refExternals) (reflexRoot [mismatched]) emptyStacks 1
     (New "q")
   = Some (mkStacks [1] [emptyStacks], New "q", Some (errMismatch 2 1)) /\
   parentIds (mkStacks [1] [emptyStacks]) <> parentIds emptyStacks) /\
  (preTraverse (Ext := pruningExternals) twoFriendsOfOne emptyStacks 1
     (New "q")
   = Some (mkStacks [] [mkStacks [1; 2] [emptyStacks]],
           object "q" false
             [object "friend" false
                [mkNode "name" 0 false (Q "'Carol'") [] false]],
           None) /\
   preTraverseOnPath (Ext := pruningExternals) (Some []) twoFriendsOfOne
     emptyStacks 1 (New "q")
   = Some (mkStacks [1] [mkStacks [1; 2] [emptyStacks]], New "q",
           Some offPath)).
Proof.
  split; split; try (vm_compute; reflexivity). vm_compute. discriminate.
Qed.

Lemma preTraverse_stack_witness :
  parentIds cycleStacks = parentIds emptyStacks /\
  preTraverseOnPath (Ext := refExternals) (Some []) cycle emptyStacks 1
    (New "q")
  = Some (cycleStacks, cycleNode, None) /\
  (encode cycleNode).2 = Q "{'name':'Alice','friend':{'name':'Bob'}}".
Proof.
  assert (Hrun : preTraverse (Ext := refExternals) cycle emptyStacks 1 (New "q")
                 = Some (cycleStacks, cycleNode, None))
    by (vm_compute; reflexivity).
  pose proof (preTraverse_stack (Ext := refExternals) cycle emptyStacks
                cycleStacks 1 (New "q") cycleNode None eq_refl Hrun)
    as (_ & Hpop & Hpath).
  split; [|split].
  - exact (proj2 (Hpop eq_refl)).
  - rewrite <- Hrun. apply Hpath. split; intros; discriminate.
  - vm_compute. reflexivity.
Defined.

(** C3: with no parent row and one child row merge returns one row, not
    zero. *)
Lemma merge_cross_product_counterexample :
  runningCounts [] [[scalar "a" "1" 0]] = [] /\
  merge (Ext := refExternals) [] [[scalar "a" "1" 0]]
  = Ok [[scalar "a" "1" 0]] /\
  length [[scalar "a" "1" 0]]
  <> (length (@nil row) * length [[scalar "a" "1" 0]])%nat.
Proof. repeat split; vm_compute; discriminate. Qed.

Lemma merge_cross_product_witness :
  merge (Ext := refExternals) [[scalar "a" "1" 0]]
    [[scalar "b" "2" 0]; [scalar "c" "3" 0]]
  = Ok [[scalar "a" "1" 0; scalar "b" "2" 0];
        [scalar "a" "1" 0; scalar "c" "3" 0]].
Proof.
  refine (proj1 (merge_cross_product (Ext := refExternals)
                   [[scalar "a" "1" 0]]
                   [[scalar "b" "2" 0]; [scalar "c" "3" 0]] _) _).
  - discriminate.
  - vm_compute. repeat constructor; discriminate.
Defined.

Lemma encode_groups_consecutive_witness :
  (encode aaba).2 = Q "{'a':[{'x':1},{'x':2}],'b':3,'a':[{'x':4}]}".
Proof.
  rewrite (encode_groups_consecutive aaba
             (object "a" true [scalar "x" "1" 0])
             (object "a" true [scalar "x" "2" 0])
             (scalar "b" "3" 0)
             (object "a" true [scalar "x" "4" 0])
             eq_refl eq_refl eq_refl ltac:(discriminate) eq_refl eq_refl).
  vm_compute. reflexivity.
Defined.

(** C5: encode writes nothing for an empty node, and a nested empty node
    leaves an empty array, not an empty object. *)
Lemma empty_node_counterexample :
  attrs zeroNode = [] /\
  (encode zeroNode).2 = [] /\
  (encode zeroNode).2 <> B "{}" /\
  (encode (AddListChild "q" zeroNode (New "_root_"))).2 = Q "{'q':[]}".
Proof. repeat split; vm_compute; discriminate || reflexivity. Qed.

Lemma empty_node_bytes_witness :
  IsEmpty (New "_root_") = true /\
  rootBytes (New "_root_") = B "{}" /\
  (encode (New "_root_")).2 = scalarVal (New "_root_").
Proof. apply (empty_node_bytes (New "_root_")). reflexivity. Defined.

Lemma SetUID_uid_once_witness :
  SetUID 255 "uid" (New "q")
  = mkNode "q" 0 false []
      [mkNode "uid" 0 false (Q "'0xff'") [] false] false /\
  SetUID 2 "uid" (SetUID 255 "uid" (New "q")) = SetUID 255 "uid" (New "q").
Proof.
  split.
  - apply (proj1 (proj1 (proj2 (SetUID_uid_once (New "q") 255)) eq_refl)).
  - apply (proj1 (SetUID_uid_once (SetUID 255 "uid" (New "q")) 2)). reflexivity.
Defined.

Lemma AddListValue_drops_unsupported_witness :
  AddListValue (Ext := refExternals) "x"
    (types.mkVal (types.OtherID 100) types.VNil) true (New "q")
  = Some (New "q") /\
  AddValue (Ext := refExternals) "x"
    (types.mkVal (types.OtherID 100) types.VNil) (New "q")
  = Some (New "q").
Proof.
  apply (AddListValue_drops_unsupported (Ext := refExternals) (New "q") "x"
           (types.mkVal (types.OtherID 100) types.VNil) true
           "Unsupported types.Val.Tid").
  reflexivity.
Defined.

(** C10: a root block that asks for the count of its uids gets the count
    under its alias and no empty child, although none of its uids yields a
    subtree.  After an earlier block of the same name the empty child is
    one more element of the array of that name, which is then not empty.
    A uid matrix that is not nil and has no row is indexed out of
    range. *)
Lemma processNodeUids_empty_key_counterexample :
  (noneAttached (Ext := refExternals) countedRoot emptyStacks [7] emptyStacks /\
   exists fj,
     processNodeUids (Ext := refExternals) (New "_root_") countedRoot emptyStacks
     = Some (emptyStacks, fj, None) /\
     fj <> AddListChild "q" zeroNode (New "_root_") /\
     rootBytes fj = Q "{'q':[{'count':0}]}") /\
  (processNodeUids (Ext := refExternals) (earlierBlock "q") filteredRoot
     emptyStacks
   = Some (emptyStacks, AddListChild "q" zeroNode (earlierBlock "q"), None) /\
   rootBytes (AddListChild "q" zeroNode (earlierBlock "q"))
   = Q "{'q':[{'x':1},]}") /\
  processNodeUids (Ext := refExternals) (New "_root_") rowlessRoot emptyStacks
  = None.
Proof.
  split; [split|split; [split|]].
  - eapply noneAttached_cons; [|apply noneAttached_nil].
    left. split; [vm_compute; reflexivity | reflexivity].
  - eexists. split; [vm_compute; reflexivity|].
    split; [discriminate | vm_compute; reflexivity].
  - vm_compute. reflexivity.
  - vm_compute. reflexivity.
  - vm_compute. reflexivity.
Qed.

Lemma processNodeUids_empty_key_witness :
  processNodeUids (Ext := refExternals) (New "_root_") countedNilRoot emptyStacks
  = Some (emptyStacks, AddListChild "q" zeroNode (New "_root_"), None) /\
  processNodeUids (Ext := refExternals) (earlierBlock "p") filteredRoot
    emptyStacks
  = Some (emptyStacks, AddListChild "q" zeroNode (earlierBlock "p"), None) /\
  rootBytes (AddListChild "q" zeroNode (earlierBlock "p"))
  = Q "{'p':[{'x':1}],'q':[]}".
Proof.
  split; [|split].
  - apply (proj1 (processNodeUids_empty_key (Ext := refExternals) countedNilRoot
                    (New "_root_") emptyStacks eq_refl)).
    reflexivity.
  - pose proof (processNodeUids_empty_key (Ext := refExternals) filteredRoot
                  (earlierBlock "p") emptyStacks eq_refl)
      as (_ & Hrow & _).
    apply (Hrow eq_refl eq_refl [7] [] emptyStacks eq_refl).
    eapply noneAttached_cons; [|apply noneAttached_nil].
    left. split; [vm_compute; reflexivity | reflexivity].
  - pose proof (processNodeUids_empty_key (Ext := refExternals) filteredRoot
                  (earlierBlock "p") emptyStacks eq_refl)
      as (_ & _ & _ & Hbytes & _).
    rewrite (Hbytes (AddListChild "q" zeroNode (earlierBlock "p")) []).
    + vm_compute. reflexivity.
    + vm_compute. reflexivity.
    + vm_compute. discriminate.
    + vm_compute. discriminate.
Defined.

(** * The further properties on concrete inputs *)

Lemma normalize_rows_shape_witness :
  [[scalar "uid" "2" 1]] <> [] /\
  List.Forall (fun r => List.Forall (fun x => isChild x = false) r)
    [[scalar "uid" "2" 1]].
Proof.
  apply (normalize_rows_shape (Ext := refExternals) nestedUids).
  vm_compute. reflexivity.
Defined.

Lemma normalize_one_group_witness :
  normalize (Ext := refExternals) twoFriends
  = Ok [[scalar "n" "B" 0; scalar "name" "A" 0; scalar "uid" "1" 0];
        [scalar "n" "C" 0; scalar "name" "A" 0; scalar "uid" "1" 0]].
Proof.
  rewrite (normalize_one_group (Ext := refExternals) twoFriends
             [scalar "name" "A" 0]
             [object "friend" true [scalar "n" "B" 0];
              object "friend" true [scalar "n" "C" 0]]
             [scalar "uid" "1" 0] "friend").
  - vm_compute. reflexivity.
  - reflexivity.
  - discriminate.
  - repeat constructor.
  - repeat constructor.
  - repeat constructor. discriminate.
  - vm_compute. discriminate.
Defined.

Lemma merge_succeeds_iff_witness :
  merge (Ext := refExternals) [[scalar "a" "1" 0]] [[scalar "b" "2" 0]]
  = Ok [[scalar "a" "1" 0; scalar "b" "2" 0]].
Proof.
  refine (proj1 (merge_succeeds_iff (Ext := refExternals)
                   [[scalar "a" "1" 0]] [[scalar "b" "2" 0]] _ _) _).
  - discriminate.
  - discriminate.
  - vm_compute. discriminate.
Defined.

Lemma Less_strict_order_witness :
  Less (scalar "b" "2" 0) (scalar "a" "1" 0) = false /\
  Less (scalar "a" "1" 0) (scalar "c" "3" 0) = true.
Proof.
  destruct Less_strict_order as (_ & Hasym & Htrans). split.
  - apply Hasym. reflexivity.
  - apply (Htrans _ (scalar "b" "2" 0)); reflexivity.
Defined.

Lemma AddMapChild_merges_witness :
  names (AddMapChild "f" (object "f" false [scalar "y" "2" 0]) false withChildF)
  = names withChildF.
Proof.
  apply (proj1 (AddMapChild_merges "f" (object "f" false [scalar "y" "2" 0])
                  withChildF false)).
  reflexivity.
Defined.

Lemma attach_keeps_names_witness :
  names (appendAttr (makeScalarNode "x" false (Q "'v'") true) withChildF)
  = names withChildF
  \/ names (appendAttr (makeScalarNode "x" false (Q "'v'") true) withChildF)
     = names withChildF ++ ["x"%string].
Proof.
  apply (proj1 (attach_keeps_names (Ext := refExternals) "x" withChildF)
           (types.mkVal types.StringID (types.VString "v")) true).
  vm_compute. reflexivity.
Defined.

Lemma preTraverse_stack_untouched_witness :
  parentIds (mkStacks [] [emptyStacks]) = parentIds emptyStacks.
Proof.
  refine (preTraverse_stack_untouched (Ext := refExternals)
            (plainRoot [namePredicate]) emptyStacks (mkStacks [] [emptyStacks])
            1 (New "q")
            (appendAttr (makeScalarNode "name" false (Q "'Alice'") false)
               (New "q"))
            None _ _).
  - reflexivity.
  - vm_compute. reflexivity.
Defined.

Lemma preTraverse_uid_field_witness :
  IsEmpty (SetUID 1 "uid"
             (appendAttr (makeScalarNode "name" false (Q "'Alice'") false)
                (New "q"))) = true
  \/ hasAttr "uid"
       (SetUID 1 "uid"
          (appendAttr (makeScalarNode "name" false (Q "'Alice'") false)
             (New "q"))) = true.
Proof.
  refine (proj2 (preTraverse_uid_field (Ext := refExternals)
                   (getUidRoot [namePredicate]) emptyStacks
                   (mkStacks [] [emptyStacks]) 1 (New "q") _ _ _) _ _).
  - reflexivity.
  - vm_compute. reflexivity.
  - reflexivity.
  - reflexivity.
Defined.

Lemma traverseChild_skips_witness :
  traverseChild (Ext := refExternals)
    (preTraverse (Ext := refExternals) ignored) (plainRoot [ignored]) ignored
    [] 1 (emptyStacks, New "q", ∅)
  = Some ((emptyStacks, New "q", ∅), None).
Proof.
  apply (proj1 (traverseChild_skips (Ext := refExternals)
                  (preTraverse (Ext := refExternals) ignored)
                  (plainRoot [ignored]) ignored [] 1
                  (emptyStacks, New "q", ∅))).
  reflexivity.
Defined.

Lemma traverseUid_pruned_witness :
  traverseUid (Ext := refExternals)
    (preTraverse (Ext := refExternals) namePredicate)
    (plainRoot [namePredicate]) namePredicate "name" [] (0, 2)
    (emptyStacks, New "q", {[2]})
  = Some ((emptyStacks, New "q", {[2]}), None).
Proof.
  apply (proj1 (traverseUid_pruned (Ext := refExternals)
                  (preTraverse (Ext := refExternals) namePredicate)
                  (plainRoot [namePredicate]) namePredicate "name" [] 0 2
                  emptyStacks (New "q") {[2]})).
  apply elem_of_singleton. reflexivity.
Defined.

Lemma processNodeUids_attaches_witness :
  attrs (New "_root_")
    `prefix_of` attrs (AddListChild "q" zeroNode (New "_root_")) /\
  hasAttr "q" (AddListChild "q" zeroNode (New "_root_")) = true.
Proof.
  destruct (processNodeUids_attaches (Ext := refExternals) (New "_root_")
              (AddListChild "q" zeroNode (New "_root_")) filteredRoot
              emptyStacks emptyStacks None) as [Hpre Hkey].
  - vm_compute. reflexivity.
  - split; [exact Hpre|].
    apply (proj2 (Hkey eq_refl)); reflexivity.
Defined.

Lemma toFastJSON_bare_only_groupby_witness : Q "{'q':[]}" <> B "{}".
Proof.
  apply (toFastJSON_bare_only_groupby (Ext := refExternals)
           (plainRoot [filteredRoot]) emptyStacks
           (mkStacks [] [emptyStacks]) (Q "{'q':[]}")).
  - vm_compute. reflexivity.
  - constructor. left. reflexivity.
Defined.

Lemma ToJson_skips_var_shortest_witness :
  ToJson (Ext := refExternals) ([] ++ varBlock :: [filteredRoot])
  = ToJson (Ext := refExternals) ([] ++ [filteredRoot]).
Proof.
  apply (ToJson_skips_var_shortest (Ext := refExternals)). left. reflexivity.
Defined.

Lemma addGroupby_shape_witness :
  (group oneGroup = [] /\
   AddListChild "g"
     (AddListChild "@groupby"
        (appendAttr (makeScalarNode "age" false (B "3") false) (New "@groupby"))
        (New "g")) (New "q") = New "q") \/
  (group oneGroup <> [] /\
   exists g,
     attrs (AddListChild "g"
              (AddListChild "@groupby"
                 (appendAttr (makeScalarNode "age" false (B "3") false)
                    (New "@groupby"))
                 (New "g")) (New "q"))
     = attrs (New "q") ++ [g] /\
     attr g = "g"%string /\ isChild g = true /\
     map attr (attrs g) = map (fun _ => "@groupby"%string) (group oneGroup) /\
     List.Forall (fun uc => isChild uc = true) (attrs g)).
Proof.
  apply (addGroupby_shape (Ext := refExternals) (plainRoot []) oneGroup "g"
           (New "q")).
  vm_compute. reflexivity.
Defined.
